(** * The Lasso path controller of celer

    A shallow embedding of [celer/homotopy.py] (function [celer_path]) and of
    [celer/wrapper.py] (function [celer]).

    - Arrays of floats are lists over a scalar type [F] that carries the
      arithmetic and the comparisons the controller uses (class [Dtype]).
      The development is generic in [F]; it is run on exact rationals, and
      read over the real numbers extended with the infinities and
      not-a-number where the grid formula is studied.
    - The input checks of lines 105-110 ([check_array]) are not modelled:
      the arrays of the model are arrays of floats of the shapes the records
      state, and the theorems that depend on what the checks guarantee say
      so in their hypotheses.
    - The arrays whose identity matters (the caller's [coef_init], the
      controller's [coefs] matrix, the [w_init] buffers handed to the inner
      solver) live in a heap of buffers; [.copy()] allocates, the inner solver
      may overwrite the buffer it is handed.
    - Exceptions are the [Raise] results of a small error monad.
    - The inner solvers [celer_sparse] and [celer_dense] are compiled
      extensions that are not part of the Python sources; they are parameters.
    - [print] under [verbose] is not modelled: nothing below depends on it. *)

From Stdlib Require Import ZArith QArith Qabs Qminmax Qround Qcanon Reals Lra Lia.
From Stdlib Require Import List.
From Stdlib Require Import Permutation Sorting.Sorted String.
From stdpp Require Import base list.

Local Open Scope Z_scope.
Local Open Scope nat_scope.

(** ** Exceptions *)

Inductive exn : Type := ValueError | IndexError | TypeError.

Inductive res (A : Type) : Type :=
| Ok (a : A)
| Raise (e : exn).
Arguments Ok {A} a.
Arguments Raise {A} e.

Definition bind {A B : Type} (m : res A) (k : A -> res B) : res B :=
  match m with
  | Ok a => k a
  | Raise e => Raise e
  end.

Notation "'let*' x ':=' m 'in' k" := (bind m (fun x => k))
  (at level 10, x pattern, m at level 100, k at level 200).

(** ** Scalars

    [X.dtype] is [float64] or [float32]; the controller only adds, multiplies,
    divides and compares.  [f_eps_default] is the literal [1e-3]. *)

Class Dtype (F : Type) : Type := {
  f_zero : F;
  f_eps_default : F;
  f_of_nat : nat -> F;
  f_add : F -> F -> F;
  f_sub : F -> F -> F;
  f_mul : F -> F -> F;
  f_div : F -> F -> F;
  f_abs : F -> F;
  f_max : F -> F -> F;
  f_log10 : F -> F;
  f_pow10 : F -> F;
  f_eqb : F -> F -> bool;
  f_leb : F -> F -> bool;
  f_ltb : F -> F -> bool
}.

(** ** The numpy operations the controller uses *)

Section Numpy.
Context {F : Type} {dt : Dtype F}.

(** [np.zeros(n)] *)
Definition np_zeros (n : nat) : list F := replicate n f_zero.

(** [w != 0], elementwise *)
Definition np_neq0 (w : list F) : list bool :=
  map (fun x => negb (f_eqb x f_zero)) w.

(** [np.where(mask)[0]]: the positions at which the mask holds *)
Fixpoint np_where_from (i : nat) (mask : list bool) : list nat :=
  match mask with
  | [] => []
  | b :: mask' =>
      if b then i :: np_where_from (S i) mask' else np_where_from (S i) mask'
  end.
Definition np_where (mask : list bool) : list nat := np_where_from 0 mask.

(** [mask.sum()] *)
Fixpoint np_sum_mask (mask : list bool) : Z :=
  match mask with
  | [] => 0%Z
  | b :: mask' => ((if b then 1 else 0) + np_sum_mask mask')%Z
  end.

(** Elementwise [a / b] of two one-dimensional arrays, with numpy's
    broadcasting of a length-one operand. *)
Definition np_divide (a b : list F) : res (list F) :=
  if length a =? length b then Ok (zip_with f_div a b)
  else match a, b with
       | [x], _ => Ok (map (fun v => f_div x v) b)
       | _, [v] => Ok (map (fun x => f_div x v) a)
       | _, _ => Raise ValueError
       end.

(** The value an [n]-element slice holds after [slice[...] = v]: [v]
    itself, or its single entry repeated. *)
Definition stored (n : nat) (v : list F) : list F :=
  if length v =? n then v else replicate n (hd f_zero v).

Definition np_setitem (n : nat) (v : list F) : res (list F) :=
  if (length v =? n) || (length v =? 1) then Ok (stored n v)
  else Raise ValueError.

(** [a[-1]] *)
Definition final_entry (a : list F) : F := List.last a f_zero.

Definition np_last (a : list F) : res F :=
  match a with
  | [] => Raise IndexError
  | _ => Ok (final_entry a)
  end.

(** [np.sort]: ascending; the result is specified, not the algorithm. *)
Fixpoint insert_sorted (x : F) (l : list F) : list F :=
  match l with
  | [] => [x]
  | y :: l' => if f_leb x y then x :: l else y :: insert_sorted x l'
  end.

Definition np_sort (l : list F) : list F := foldr insert_sorted [] l.

(** [np.max] of a one-dimensional array *)
Definition np_max (a : list F) : res F :=
  match a with
  | [] => Raise ValueError
  | x :: a' => Ok (fold_left f_max a' x)
  end.

(** [np.linspace(start, stop, num)] with the end point included: evenly
    spaced samples [i * step + start], the last one set to [stop]; a single
    sample is computed as [0 * (stop - start) + start]. *)
Definition np_linspace (start stop : F) (num : Z) : res (list F) :=
  if (num <? 0)%Z then Raise ValueError
  else match Z.to_nat num with
       | 0 => Ok []
       | 1 => Ok [f_add (f_mul (f_of_nat 0) (f_sub stop start)) start]
       | S (S _ as div) =>
           let step := f_div (f_sub stop start) (f_of_nat div) in
           Ok (map (fun i => f_add (f_mul (f_of_nat i) step) start) (seq 0 div)
               ++ [stop])
       end.

(** [np.logspace(start, stop, num)] = [10 ** np.linspace(start, stop, num)] *)
Definition np_logspace (start stop : F) (num : Z) : res (list F) :=
  let* y := np_linspace start stop num in Ok (map f_pow10 y).

(** Inner product of two vectors of equal length. *)
Definition np_dot (a b : list F) : F :=
  foldr f_add f_zero (zip_with f_mul a b).

(** Columns of a Fortran-ordered buffer with [nrow] rows. *)
Definition column (nrow : nat) (buf : list F) (j : nat) : list F :=
  take nrow (drop (j * nrow) buf).

Definition set_column (nrow : nat) (buf : list F) (j : nat) (v : list F)
  : list F :=
  take (j * nrow) buf ++ v ++ drop (j * nrow + nrow) buf.
End Numpy.

(** ** Data model *)

(** Heap of array buffers; an address is an index. *)
Abbreviation addr := nat.
Abbreviation heap F := (list (list F)).

Section DataModel.
Context {F : Type} {dt : Dtype F}.

(** The design matrix after [check_array]: a Fortran-ordered dense block,
    or a compressed sparse column triplet. *)
Inductive storage : Type :=
| Dense (buf : list F)
| Csc (data : list F) (indices indptr : list nat).

Record design : Type := {
  n_samples : nat;
  n_features : nat;
  X_store : storage
}.

Definition data_is_sparse (X : design) : bool :=
  match X_store X with
  | Csc _ _ _ => true
  | Dense _ => false
  end.

(** [X.T.dot(y)] *)
Definition csc_column_dot (data : list F) (indices indptr : list nat)
    (y : list F) (j : nat) : F :=
  let lo := nth j indptr 0 in
  let hi := nth (S j) indptr 0 in
  foldr f_add f_zero
    (map (fun k => f_mul (nth k data f_zero) (nth (nth k indices 0) y f_zero))
         (seq lo (hi - lo))).

Definition XT_dot (X : design) (y : list F) : res (list F) :=
  if length y =? n_samples X then
    Ok (map (fun j =>
               match X_store X with
               | Dense buf => np_dot (column (n_samples X) buf j) y
               | Csc data indices indptr => csc_column_dot data indices indptr y j
               end)
            (seq 0 (n_features X)))
  else Raise ValueError.

Definition alloc (h : heap F) (v : list F) : addr * heap F :=
  (length h, h ++ [v]).
Definition deref (h : heap F) (l : addr) : list F := default [] (h !! l).

(** Keyword arguments of the inner solvers. *)
Record kwargs : Type := {
  kw_max_iter : Z;
  kw_gap_freq : Z;
  kw_max_epochs : Z;
  kw_p0 : Z;
  kw_verbose : Z;
  kw_verbose_inner : Z;
  kw_use_accel : Z;
  kw_tol : F;
  kw_prune : Z
}.

(** One call of an inner solver, with its positional arguments. *)
Inductive solver_call : Type :=
| Call_sparse (data : list F) (indices indptr : list nat)
    (X_sparse_scaling : list F) (y : list F) (alpha : F) (w_init : list F)
    (kw : kwargs)
| Call_dense (X : design) (y : list F) (alpha : F) (w_init : list F)
    (kw : kwargs).

Definition call_w_init (c : solver_call) : list F :=
  match c with
  | Call_sparse _ _ _ _ _ _ w _ => w
  | Call_dense _ _ _ w _ => w
  end.

Definition call_y (c : solver_call) : list F :=
  match c with
  | Call_sparse _ _ _ _ y _ _ _ => y
  | Call_dense _ y _ _ _ => y
  end.

Definition call_alpha (c : solver_call) : F :=
  match c with
  | Call_sparse _ _ _ _ _ a _ _ => a
  | Call_dense _ _ a _ _ => a
  end.

Definition call_kw (c : solver_call) : kwargs :=
  match c with
  | Call_sparse _ _ _ _ _ _ _ kw => kw
  | Call_dense _ _ _ _ kw => kw
  end.

(** The scaling vector a call carries, if it carries one. *)
Definition call_scaling (c : solver_call) : option (list F) :=
  match c with
  | Call_sparse _ _ _ sc _ _ _ _ => Some sc
  | Call_dense _ _ _ _ _ => None
  end.

(** What an inner solver returns: the tuple [sol], whose fourth component
    may be absent, and the contents it leaves in the [w_init] buffer. *)
Record solution : Type := {
  sol_0 : list F;
  sol_1 : list F;
  sol_2 : list F;
  sol_3 : option (list F);
  w_init_after : list F
}.

(** Arguments of [celer_path] after [X] and [y]. *)
Record params : Type := {
  eps : F;
  n_alphas : Z;
  alphas : option (list F);
  coef_init : option addr;
  max_iter : Z;
  gap_freq : Z;
  max_epochs : Z;
  p0 : Z;
  verbose : Z;
  verbose_inner : Z;
  tol : F;
  prune : Z;
  return_thetas : bool;
  monitor : bool;
  X_offset : option (list F);
  X_scale : option (list F)
}.

(** Components of the returned tuple. *)
Inductive pyval : Type :=
| Arr1 (v : list F)
| Arr2F (nrow ncol : nat) (buf : list F)
| Arr2C (rows : list (list F))
| PyList (items : list (list F)).

(** A [ConvergenceWarning], tagged with the grid position that raised it. *)
Definition convergence_message : string :=
  ("Objective did not converge." ++ " You might want"
   ++ " to increase the number of iterations."
   ++ " Fitting data with very small alpha"
   ++ " may cause precision problems.")%string.

(** State of the loop of [celer_path]. *)
Record pstate : Type := {
  st_heap : heap F;
  st_thetas : list (list F);
  st_dual_gaps : list F;
  st_all_times : list F;
  st_gaps_per_alpha : list (list F);
  st_times_per_alpha : list (list F);
  st_p0 : Z;
  st_calls : list (addr * solver_call);
  st_warnings : list (nat * string)
}.

(** What a run leaves behind: the returned tuple, and the final state
    with the heap, the solver calls in order (each with the address of its
    [w_init] buffer) and the warnings. *)
Record outcome : Type := {
  out_results : list pyval;
  out_final : pstate
}.

Definition out_calls (o : outcome) : list (addr * solver_call) :=
  st_calls (out_final o).
Definition out_warnings (o : outcome) : list (nat * string) :=
  st_warnings (out_final o).
Definition out_heap (o : outcome) : heap F := st_heap (out_final o).
End DataModel.

Arguments storage F : clear implicits.
Arguments design F : clear implicits.
Arguments kwargs F : clear implicits.
Arguments solver_call F : clear implicits.
Arguments solution F : clear implicits.
Arguments params F : clear implicits.
Arguments pyval F : clear implicits.
Arguments pstate F : clear implicits.
Arguments outcome F : clear implicits.

(** ** The path controller *)

Section Controller.
Context {F : Type} {dt : Dtype F}.

(** The inner solvers. *)
Variable celer_sparse :
  list F -> list nat -> list nat -> list F -> list F -> F -> list F ->
  kwargs F -> solution F.
Variable celer_dense :
  design F -> list F -> F -> list F -> kwargs F -> solution F.

Definition invoke (c : solver_call F) : solution F :=
  match c with
  | Call_sparse data indices indptr sc y alpha w kw =>
      celer_sparse data indices indptr sc y alpha w kw
  | Call_dense X y alpha w kw => celer_dense X y alpha w kw
  end.

(** [time.time()]: the successive readings of the wall clock. *)
Variable clock : nat -> F.

(** Lines 114-120: the sparse scaling vector. *)
Definition sparse_scaling (X : design F) (p : params F) : res (list F) :=
  match X_offset p with
  | Some offset =>
      match X_scale p with
      | Some scale => np_divide offset scale
      | None => Raise TypeError
      end
  | None => Ok (np_zeros (n_features X))
  end.

(** Lines 122-127: the grid. *)
Definition alpha_max (X : design F) (y : list F) : res F :=
  let* xty := XT_dot X y in
  let* m := np_max (map f_abs xty) in
  Ok (f_div m (f_of_nat (n_samples X))).

Definition make_alphas (X : design F) (y : list F) (p : params F)
  : res (list F) :=
  match alphas p with
  | None =>
      let* amax := alpha_max X y in
      let* ls := np_logspace f_zero (f_log10 (eps p)) (n_alphas p) in
      Ok (map (f_mul amax) ls)
  | Some a => Ok (rev (np_sort a))
  end.

(** Lines 144-152: the warm start.  Returns the address of the fresh
    [w_init], the heap holding it, and the working-set size. *)
Definition warm_start (a_coefs : addr) (nf : nat) (p : params F) (t : nat)
    (s : pstate F) : addr * heap F * Z :=
  if 0 <? t then
    let '(l, h) := alloc (st_heap s) (column nf (deref (st_heap s) a_coefs) (t - 1)) in
    (l, h, Z.max (Z.of_nat (length (np_where (np_neq0 (deref h l))))) 1)
  else
    match coef_init p with
    | Some c =>
        let '(l, h) := alloc (st_heap s) (deref (st_heap s) c) in
        (l, h, Z.max (np_sum_mask (np_neq0 (deref h l))) (st_p0 s))
    | None =>
        let '(l, h) := alloc (st_heap s) (np_zeros nf) in
        (l, h, st_p0 s)
    end.

(** Lines 156-167: the call. *)
Definition make_call (X : design F) (sc y : list F) (alpha : F)
    (w_init : list F) (kw : kwargs F) : solver_call F :=
  match X_store X with
  | Csc data indices indptr =>
      Call_sparse data indices indptr sc y alpha w_init kw
  | Dense _ => Call_dense X y alpha w_init kw
  end.

Definition make_kwargs (p : params F) (hint : Z) : kwargs F :=
  {| kw_max_iter := max_iter p; kw_gap_freq := gap_freq p;
     kw_max_epochs := max_epochs p; kw_p0 := hint;
     kw_verbose := verbose p; kw_verbose_inner := verbose_inner p;
     kw_use_accel := 1; kw_tol := tol p; kw_prune := prune p |}.

(** Lines 140-181: one turn of the loop. *)
Definition step (a_coefs : addr) (X : design F) (sc y grid : list F)
    (p : params F) (t : nat) (s : pstate F) : res (pstate F) :=
  let '(l, h1, hint) := warm_start a_coefs (n_features X) p t s in
  let* alpha := match grid !! t with
                | Some a => Ok a
                | None => Raise IndexError
                end in
  let t0 := clock (2 * t) in
  let c := make_call X sc y alpha (deref h1 l) (make_kwargs p hint) in
  let sol := invoke c in
  let h2 := <[l := w_init_after sol]> h1 in
  let elapsed := f_sub (clock (2 * t + 1)) t0 in
  let* gap := np_last (sol_2 sol) in
  let* col := np_setitem (n_features X) (sol_0 sol) in
  let* row := np_setitem (n_samples X) (sol_1 sol) in
  let h3 := <[a_coefs := set_column (n_features X) (deref h2 a_coefs) t col]> h2 in
  let* traj :=
    if monitor p then
      match sol_3 sol with
      | Some times =>
          Ok (st_gaps_per_alpha s ++ [sol_2 sol], st_times_per_alpha s ++ [times])
      | None => Raise IndexError
      end
    else Ok (st_gaps_per_alpha s, st_times_per_alpha s) in
  Ok {| st_heap := h3;
        st_thetas := <[t := row]> (st_thetas s);
        st_dual_gaps := <[t := gap]> (st_dual_gaps s);
        st_all_times := <[t := elapsed]> (st_all_times s);
        st_gaps_per_alpha := fst traj;
        st_times_per_alpha := snd traj;
        st_p0 := hint;
        st_calls := st_calls s ++ [(l, c)];
        st_warnings :=
          if f_ltb (tol p) gap
          then st_warnings s ++ [(t, convergence_message)]
          else st_warnings s |}.

(** [for t in range(n_alphas)] *)
Fixpoint for_range (body : nat -> pstate F -> res (pstate F))
    (ts : list nat) (s : pstate F) : res (pstate F) :=
  match ts with
  | [] => Ok s
  | t :: ts' => let* s' := body t s in for_range body ts' s'
  end.

(** Lines 183-189: the returned tuple. *)
Definition assemble (p : params F) (grid : list F) (nf : nat)
    (coefs : list F) (s : pstate F) : list (pyval F) :=
  let results := [Arr1 grid; Arr2F nf (length grid) coefs; Arr1 (st_dual_gaps s)] in
  if return_thetas p then
    let results := results ++ [Arr2C (st_thetas s)] in
    if monitor p then
      results ++ [PyList (st_gaps_per_alpha s); PyList (st_times_per_alpha s)]
    else results
  else results.

Definition initial_state (h : heap F) (n ns : nat) (p : params F) : pstate F :=
  {| st_heap := h;
     st_thetas := replicate n (np_zeros ns);
     st_dual_gaps := np_zeros n;
     st_all_times := np_zeros n;
     st_gaps_per_alpha := [];
     st_times_per_alpha := [];
     st_p0 := p0 p;
     st_calls := [];
     st_warnings := [] |}.

(** [celer_path], run from the caller's heap [h0]. *)
Definition celer_path (h0 : heap F) (X : design F) (y : list F) (p : params F)
  : res (outcome F) :=
  let* X_sparse_scaling := sparse_scaling X p in
  let* grid := make_alphas X y p in
  let n := length grid in
  let '(a_coefs, h) := alloc h0 (np_zeros (n_features X * n)) in
  let* s := for_range (step a_coefs X X_sparse_scaling y grid p) (seq 0 n)
                      (initial_state h n (n_samples X) p) in
  Ok {| out_results :=
          assemble p grid (n_features X) (deref (st_heap s) a_coefs) s;
        out_final := s |}.

(** ** The single-alpha adapter, [celer] of [wrapper.py] *)

(** [coefs.T[0]], [thetas[0]], [all_gaps[0]] *)
Definition index0 (v : pyval F) : res (list F) :=
  match v with
  | Arr2F nrow ncol buf =>
      if 0 <? ncol then Ok (column nrow buf 0) else Raise IndexError
  | Arr2C rows | PyList rows =>
      match rows with
      | r :: _ => Ok r
      | [] => Raise IndexError
      end
  | Arr1 _ => Raise TypeError
  end.

Definition celer (h0 : heap F) (X : design F) (y : list F) (alpha : F)
    (w_init : option addr)
    (max_iter gap_freq max_epochs p0 verbose verbose_inner : Z) (tol : F)
    (prune : Z) : res (list F * list F * list F * list F) :=
  let* out :=
    celer_path h0 X y
      {| eps := f_eps_default; n_alphas := 100; alphas := Some [alpha];
         coef_init := w_init; max_iter := 20; gap_freq := gap_freq;
         max_epochs := max_epochs; p0 := p0; verbose := verbose;
         verbose_inner := verbose_inner; tol := tol; prune := prune;
         return_thetas := true; monitor := true;
         X_offset := None; X_scale := None |} in
  match out_results out with
  | [_; coefs; _; thetas; all_gaps; all_times] =>
      let* w := index0 coefs in
      let* theta := index0 thetas in
      let* gaps := index0 all_gaps in
      let* times := index0 all_times in
      Ok (w, theta, gaps, times)
  | _ => Raise ValueError
  end.

(** The adapter as the specification words it: the index-0 slices of the
    path controller run on the grid [[alpha]] with the same parameters,
    dual points and monitoring forced on. *)
Definition slice0 (results : list (pyval F))
  : res (list F * list F * list F * list F) :=
  match results with
  | [_; coefs; _; thetas; all_gaps; all_times] =>
      let* w := index0 coefs in
      let* theta := index0 thetas in
      let* gaps := index0 all_gaps in
      let* times := index0 all_times in
      Ok (w, theta, gaps, times)
  | _ => Raise ValueError
  end.

Definition celer_spec (h0 : heap F) (X : design F) (y : list F) (alpha : F)
    (w_init : option addr)
    (max_iter gap_freq max_epochs p0 verbose verbose_inner : Z) (tol : F)
    (prune : Z) : res (list F * list F * list F * list F) :=
  let* out :=
    celer_path h0 X y
      {| eps := f_eps_default; n_alphas := 100; alphas := Some [alpha];
         coef_init := w_init; max_iter := max_iter; gap_freq := gap_freq;
         max_epochs := max_epochs; p0 := p0; verbose := verbose;
         verbose_inner := verbose_inner; tol := tol; prune := prune;
         return_thetas := true; monitor := true;
         X_offset := None; X_scale := None |} in
  slice0 (out_results out).
End Controller.

(** ** Two scalar types *)

(** Exact rationals, kept reduced.  [f_log10] and [f_pow10] are exact on the
    powers of ten and on integer exponents, and round down elsewhere. *)
Module QDtype.
Local Open Scope Q_scope.

Fixpoint log10_up (fuel : nat) (q : Q) : Z :=
  match fuel with
  | O => 0%Z
  | S fuel' =>
      if Qle_bool 10 q then (1 + log10_up fuel' (q / 10))%Z else 0%Z
  end.

Fixpoint log10_down (fuel : nat) (q : Q) : Z :=
  match fuel with
  | O => 0%Z
  | S fuel' =>
      if Qle_bool 1 q then 0%Z else (log10_down fuel' (q * 10) - 1)%Z
  end.

Definition log10 (q : Q) : Q :=
  let fuel := Pos.to_nat (Pos.size (Z.to_pos (Qnum q)) + Pos.size (Qden q)) in
  inject_Z (if Qle_bool 1 q then log10_up fuel q else log10_down fuel q).

Definition pow10 (q : Q) : Q := Qred (Qpower 10 (Qfloor q)).

#[export] Instance Q_dtype : Dtype Q := {|
  f_zero := 0;
  f_eps_default := 1 # 1000;
  f_of_nat := fun n => inject_Z (Z.of_nat n);
  f_add := fun x y => Qred (x + y);
  f_sub := fun x y => Qred (x - y);
  f_mul := fun x y => Qred (x * y);
  f_div := fun x y => Qred (x / y);
  f_abs := fun x => Qred (Qabs x);
  f_max := fun x y => if Qle_bool x y then y else x;
  f_log10 := log10;
  f_pow10 := pow10;
  f_eqb := Qeq_bool;
  f_leb := Qle_bool;
  f_ltb := fun x y => negb (Qle_bool y x)
|}.
End QDtype.

(** The real numbers with the special values of floating-point arithmetic:
    the two infinities and not-a-number, combined as IEEE 754 combines them.
    Finite values are exact (no rounding, no overflow) and there is one
    zero. *)
Module RDtype.
Local Open Scope R_scope.

Inductive xreal : Type :=
| Fin (r : R)
| PInf
| MInf
| NaN.

Definition is_finite (x : xreal) : Prop :=
  match x with
  | Fin _ => True
  | _ => False
  end.

Definition neg (x : xreal) : xreal :=
  match x with
  | Fin r => Fin (- r)
  | PInf => MInf
  | MInf => PInf
  | NaN => NaN
  end.

Definition signed_inf (positive : bool) : xreal :=
  if positive then PInf else MInf.

(** An infinity times (or a zero divisor under) the finite [r]. *)
Definition inf_times (positive : bool) (r : R) : xreal :=
  if Rlt_dec 0 r then signed_inf positive
  else if Rlt_dec r 0 then signed_inf (negb positive)
  else NaN.

Definition add (a b : xreal) : xreal :=
  match a, b with
  | NaN, _ | _, NaN => NaN
  | Fin r, Fin s => Fin (r + s)
  | PInf, MInf | MInf, PInf => NaN
  | PInf, _ | _, PInf => PInf
  | MInf, _ | _, MInf => MInf
  end.

Definition sub (a b : xreal) : xreal := add a (neg b).

Definition mul (a b : xreal) : xreal :=
  match a, b with
  | NaN, _ | _, NaN => NaN
  | Fin r, Fin s => Fin (r * s)
  | Fin r, PInf | PInf, Fin r => inf_times true r
  | Fin r, MInf | MInf, Fin r => inf_times false r
  | PInf, PInf | MInf, MInf => PInf
  | PInf, MInf | MInf, PInf => MInf
  end.

Definition div (a b : xreal) : xreal :=
  match a, b with
  | NaN, _ | _, NaN => NaN
  | Fin r, Fin s => if Req_dec_T s 0 then inf_times true r else Fin (r / s)
  | Fin _, PInf | Fin _, MInf => Fin 0
  | PInf, Fin s => signed_inf (if Rlt_dec s 0 then false else true)
  | MInf, Fin s => signed_inf (if Rlt_dec s 0 then true else false)
  | _, _ => NaN
  end.

Definition abs (a : xreal) : xreal :=
  match a with
  | Fin r => Fin (Rabs r)
  | PInf | MInf => PInf
  | NaN => NaN
  end.

(** [np.maximum]: not-a-number wins. *)
Definition max (a b : xreal) : xreal :=
  match a, b with
  | NaN, _ | _, NaN => NaN
  | PInf, _ | _, PInf => PInf
  | MInf, x | x, MInf => x
  | Fin r, Fin s => Fin (Rmax r s)
  end.

(** [np.log10]: minus infinity at zero, not-a-number below. *)
Definition log10 (a : xreal) : xreal :=
  match a with
  | Fin r =>
      if Rlt_dec 0 r then Fin (ln r / ln 10)
      else if Rlt_dec r 0 then NaN
      else MInf
  | PInf => PInf
  | MInf | NaN => NaN
  end.

(** [10 ** a] *)
Definition pow10 (a : xreal) : xreal :=
  match a with
  | Fin r => Fin (Rpower 10 r)
  | PInf => PInf
  | MInf => Fin 0
  | NaN => NaN
  end.

Definition eqb (a b : xreal) : bool :=
  match a, b with
  | Fin r, Fin s => if Req_dec_T r s then true else false
  | PInf, PInf | MInf, MInf => true
  | _, _ => false
  end.

Definition leb (a b : xreal) : bool :=
  match a, b with
  | NaN, _ | _, NaN => false
  | MInf, _ | _, PInf => true
  | Fin r, Fin s => if Rle_dec r s then true else false
  | _, _ => false
  end.

Definition ltb (a b : xreal) : bool :=
  match a, b with
  | NaN, _ | _, NaN => false
  | MInf, MInf | PInf, PInf => false
  | MInf, _ | _, PInf => true
  | Fin r, Fin s => if Rlt_dec r s then true else false
  | _, _ => false
  end.

#[export] Instance R_dtype : Dtype xreal := {|
  f_zero := Fin 0;
  f_eps_default := Fin (1 / 1000);
  f_of_nat := fun n => Fin (INR n);
  f_add := add;
  f_sub := sub;
  f_mul := mul;
  f_div := div;
  f_abs := abs;
  f_max := max;
  f_log10 := log10;
  f_pow10 := pow10;
  f_eqb := eqb;
  f_leb := leb;
  f_ltb := ltb
|}.

(** A design matrix and a vector without infinities or not-a-number, as
    [check_array] demands. *)
Definition finite_design (X : design xreal) : Prop :=
  match X_store X with
  | Dense buf => Forall is_finite buf
  | Csc data _ _ => Forall is_finite data
  end.

(** [10 ** np.linspace(0, s, n)] on the reals. *)
Definition ramp (s : R) (n : nat) : list R :=
  match n with
  | O => []
  | 1%nat => [Rpower 10 (INR 0 * (s + - 0) + 0)]
  | S (S _ as d) =>
      map (fun i => Rpower 10 (INR i * ((s + - 0) / INR d) + 0)) (seq 0 d)
      ++ [Rpower 10 s]
  end.
End RDtype.

(** Canonical rationals: the arithmetic of [QDtype] on reduced fractions,
    for which the comparison is a total order. *)
Module QcDtype.
Local Open Scope Q_scope.

#[export] Instance Qc_dtype : Dtype Qc := {|
  f_zero := Q2Qc 0;
  f_eps_default := Q2Qc (1 # 1000);
  f_of_nat := fun n => Q2Qc (inject_Z (Z.of_nat n));
  f_add := fun x y => Q2Qc (x + y);
  f_sub := fun x y => Q2Qc (x - y);
  f_mul := fun x y => Q2Qc (x * y);
  f_div := fun x y => Q2Qc (x / y);
  f_abs := fun x => Q2Qc (Qabs x);
  f_max := fun x y => if Qle_bool x y then y else x;
  f_log10 := fun x => Q2Qc (QDtype.log10 x);
  f_pow10 := fun x => Q2Qc (QDtype.pow10 x);
  f_eqb := fun x y => Qeq_bool x y;
  f_leb := fun x y => Qle_bool x y;
  f_ltb := fun x y => negb (Qle_bool y x)
|}.
End QcDtype.

(** ** The run of the controller, written out

    The loop of [celer_path] is described here without state: the calls it
    makes to the inner solver, one per grid value, and the state those calls
    leave.  [celer_path_unfold] below shows that the loop computes exactly
    this. *)

Section Reference.
Context {F : Type} {dt : Dtype F}.
Variable celer_sparse :
  list F -> list nat -> list nat -> list F -> list F -> F -> list F ->
  kwargs F -> solution F.
Variable celer_dense :
  design F -> list F -> F -> list F -> kwargs F -> solution F.
Variable clock : nat -> F.
Variable h0 : heap F.
Variable X : design F.
Variable y : list F.
Variable p : params F.
Variable sc : list F.
Variable grid : list F.

Local Abbreviation solve := (invoke celer_sparse celer_dense).

(** Number of nonzero entries of a vector. *)
Definition count_nonzero (w : list F) : nat :=
  length (List.filter (fun x => negb (f_eqb x f_zero)) w).

(** What a call leaves in [coefs[:, t]], [thetas[t]] and [dual_gaps[t]]. *)
Definition col_of (c : solver_call F) : list F :=
  stored (n_features X) (sol_0 (solve c)).
Definition row_of (c : solver_call F) : list F :=
  stored (n_samples X) (sol_1 (solve c)).
Definition gap_of (c : solver_call F) : F := final_entry (sol_2 (solve c)).

(** Initial coefficients and working-set size of a turn, from the call of
    the turn before it (none at the first turn). *)
Definition w_init_at (prev : option (solver_call F)) : list F :=
  match prev with
  | Some c => col_of c
  | None =>
      match coef_init p with
      | Some a => deref h0 a
      | None => np_zeros (n_features X)
      end
  end.

Definition hint_at (prev : option (solver_call F)) : Z :=
  match prev with
  | Some c => Z.max (Z.of_nat (count_nonzero (col_of c))) 1
  | None =>
      match coef_init p with
      | Some a => Z.max (Z.of_nat (count_nonzero (deref h0 a))) (p0 p)
      | None => p0 p
      end
  end.

Definition call_at (prev : option (solver_call F)) (alpha : F)
  : solver_call F :=
  make_call X sc y alpha (w_init_at prev) (make_kwargs p (hint_at prev)).

(** The calls of the first [k] turns, each with the address of its
    [w_init] buffer: [coefs] sits at [length h0], the buffers follow. *)
Fixpoint trace (k : nat) : list (addr * solver_call F) :=
  match k with
  | 0 => []
  | S k' =>
      let tr := trace k' in
      match grid !! k' with
      | Some alpha =>
          tr ++ [(S (length h0) + k', call_at (snd <$> last tr) alpha)]
      | None => tr
      end
  end.

(** The exceptions a turn can raise, in the order the turn raises them. *)
Definition check_call (c : solver_call F) : res unit :=
  let sol := solve c in
  let* _ := np_last (sol_2 sol) in
  let* _ := np_setitem (n_features X) (sol_0 sol) in
  let* _ := np_setitem (n_samples X) (sol_1 sol) in
  if monitor p then
    match sol_3 sol with
    | Some _ => Ok tt
    | None => Raise IndexError
    end
  else Ok tt.

Fixpoint check_calls (cs : list (addr * solver_call F)) : res unit :=
  match cs with
  | [] => Ok tt
  | c :: cs' => let* _ := check_call (snd c) in check_calls cs'
  end.

Definition warning_of (t : nat) (c : addr * solver_call F)
  : list (nat * string) :=
  if f_ltb (tol p) (gap_of (snd c)) then [(t, convergence_message)] else [].

Definition coefs_of (tr : list (addr * solver_call F)) : list F :=
  concat (map (fun c => col_of (snd c)) tr)
  ++ np_zeros (n_features X * (length grid - length tr)).

(** The state after the calls [tr]. *)
Definition state_of (tr : list (addr * solver_call F)) : pstate F :=
  let k := length tr in
  let n := length grid in
  {| st_heap :=
       h0 ++ coefs_of tr :: map (fun c => w_init_after (solve (snd c))) tr;
     st_thetas :=
       map (fun c => row_of (snd c)) tr
       ++ replicate (n - k) (np_zeros (n_samples X));
     st_dual_gaps := map (fun c => gap_of (snd c)) tr ++ np_zeros (n - k);
     st_all_times :=
       map (fun t => f_sub (clock (2 * t + 1)) (clock (2 * t))) (seq 0 k)
       ++ np_zeros (n - k);
     st_gaps_per_alpha :=
       if monitor p then map (fun c => sol_2 (solve (snd c))) tr else [];
     st_times_per_alpha :=
       if monitor p
       then map (fun c => default [] (sol_3 (solve (snd c)))) tr
       else [];
     st_p0 :=
       match last tr with
       | Some c => kw_p0 (call_kw (snd c))
       | None => p0 p
       end;
     st_calls := tr;
     st_warnings := concat (imap warning_of tr) |}.

Definition outcome_of (tr : list (addr * solver_call F)) : outcome F :=
  {| out_results :=
       assemble p grid (n_features X) (coefs_of tr) (state_of tr);
     out_final := state_of tr |}.
End Reference.

(** ** Conditions on the inputs and on the inner solvers *)

Section Contracts.
Context {F : Type} {dt : Dtype F}.

(** The inner solver returns coefficients of the length of the initial
    vector, a dual point of the length of the target, at least one gap,
    and the timing trajectory. *)
Definition solver_contract (solve : solver_call F -> solution F) : Prop :=
  forall c : solver_call F,
    length (sol_0 (solve c)) = length (call_w_init c) /\
    length (sol_1 (solve c)) = length (call_y c) /\
    sol_2 (solve c) <> [] /\
    sol_3 (solve c) <> None.

(** The caller's side: a target of [n_samples] entries, a design matrix
    with at least one feature, an initial vector (if any) that is an array
    of the caller's heap with [n_features] entries, and a number of grid
    values that is not negative when the grid is to be derived. *)
Definition inputs_ok (h0 : heap F) (X : design F) (y : list F)
    (p : params F) : Prop :=
  length y = n_samples X /\
  0 < n_features X /\
  match coef_init p with
  | Some a => exists w, h0 !! a = Some w /\ length w = n_features X
  | None => True
  end /\
  (alphas p = None -> (0 <= n_alphas p)%Z).

(** An offset comes with a scale of the same length. *)
Definition offset_ok (p : params F) : Prop :=
  match X_offset p, X_scale p with
  | Some o, Some s => length o = length s
  | Some _, None => False
  | None, _ => True
  end.

(** Order of the grid values. *)
Definition descending (l : list F) : Prop :=
  StronglySorted (fun a b => f_leb b a = true) l.

Definition strictly_descending (l : list F) : Prop :=
  StronglySorted (fun a b => f_leb b a = true /\ a <> b) l.

(** The grid positions whose recorded gap exceeds the tolerance. *)
Definition offending (tolerance : F) (gaps : list F) : list nat :=
  List.filter (fun t => f_ltb tolerance (nth t gaps f_zero))
              (seq 0 (length gaps)).

(** The same call with another [n_alphas]. *)
Definition with_n_alphas (p : params F) (n : Z) : params F :=
  {| eps := eps p; n_alphas := n; alphas := alphas p;
     coef_init := coef_init p; max_iter := max_iter p;
     gap_freq := gap_freq p; max_epochs := max_epochs p; p0 := p0 p;
     verbose := verbose p; verbose_inner := verbose_inner p; tol := tol p;
     prune := prune p; return_thetas := return_thetas p;
     monitor := monitor p; X_offset := X_offset p; X_scale := X_scale p |}.

(** What the caller of [celer_path] gets: the tuple, or the exception. *)
Definition returned (r : res (outcome F)) : res (list (pyval F)) :=
  match r with
  | Ok out => Ok (out_results out)
  | Raise e => Raise e
  end.

Definition leb_total : Prop :=
  forall a b : F, f_leb a b = true \/ f_leb b a = true.
Definition leb_trans : Prop :=
  forall a b c : F, f_leb a b = true -> f_leb b c = true -> f_leb a c = true.
Definition leb_antisym : Prop :=
  forall a b : F, f_leb a b = true -> f_leb b a = true -> a = b.

(** The same call with another grid, and with another offset and scale. *)
Definition with_alphas (p : params F) (a : option (list F)) : params F :=
  {| eps := eps p; n_alphas := n_alphas p; alphas := a;
     coef_init := coef_init p; max_iter := max_iter p;
     gap_freq := gap_freq p; max_epochs := max_epochs p; p0 := p0 p;
     verbose := verbose p; verbose_inner := verbose_inner p; tol := tol p;
     prune := prune p; return_thetas := return_thetas p;
     monitor := monitor p; X_offset := X_offset p; X_scale := X_scale p |}.

Definition with_offset (p : params F) (offset scale : option (list F))
  : params F :=
  {| eps := eps p; n_alphas := n_alphas p; alphas := alphas p;
     coef_init := coef_init p; max_iter := max_iter p;
     gap_freq := gap_freq p; max_epochs := max_epochs p; p0 := p0 p;
     verbose := verbose p; verbose_inner := verbose_inner p; tol := tol p;
     prune := prune p; return_thetas := return_thetas p;
     monitor := monitor p; X_offset := offset; X_scale := scale |}.

(** The inner solver's contract when the timing trajectory is not asked
    for: a tuple of three components is enough. *)
Definition solver_contract3 (solve : solver_call F -> solution F) : Prop :=
  forall c : solver_call F,
    length (sol_0 (solve c)) = length (call_w_init c) /\
    length (sol_1 (solve c)) = length (call_y c) /\
    sol_2 (solve c) <> [].

(** The inner solver's contract for a run with parameters [p]: the three
    components always, the timing trajectory when [monitor] is set. *)
Definition solver_contract_for (p : params F)
    (solve : solver_call F -> solution F) : Prop :=
  solver_contract3 solve /\
  (monitor p = true -> forall c : solver_call F, sol_3 (solve c) <> None).
End Contracts.

(** ** Concrete inputs

    A small design matrix in both storage formats, and inner solvers that
    respect the contract: they return the initial vector with its first entry
    moved by one, a dual point filled with the working-set size, a gap
    trajectory of [max_iter] ones followed by [alpha], and two timings; they
    overwrite the [w_init] buffer with sevens. *)

Module Examples.
Import QDtype.
Local Open Scope Q_scope.

Definition toy_solution (y : list Q) (alpha : Q) (w : list Q) (kw : kwargs Q)
  : solution Q :=
  {| sol_0 := match w with
              | x :: w' => Qred (x + 1) :: w'
              | [] => []
              end;
     sol_1 := map (fun _ => inject_Z (kw_p0 kw)) y;
     sol_2 := replicate (Z.to_nat (kw_max_iter kw)) 1 ++ [alpha];
     sol_3 := Some [1; 2];
     w_init_after := map (fun _ => 7) w |}.

Definition toy_sparse (data : list Q) (indices indptr : list nat)
    (sc y : list Q) (alpha : Q) (w : list Q) (kw : kwargs Q) : solution Q :=
  toy_solution y alpha w kw.

Definition toy_dense (X : design Q) (y : list Q) (alpha : Q) (w : list Q)
    (kw : kwargs Q) : solution Q :=
  toy_solution y alpha w kw.

Definition tick (n : nat) : Q := inject_Z (Z.of_nat n).
Definition tock (n : nat) : Q := inject_Z (Z.of_nat (3 * n)).

(** [[1, 0], [0, 1], [1, 1]], column by column. *)
Definition X_dense : design Q :=
  {| n_samples := 3; n_features := 2; X_store := Dense [1; 0; 1; 0; 1; 1] |}.

Definition X_csc : design Q :=
  {| n_samples := 3; n_features := 2;
     X_store := Csc [1; 1; 1; 1] [0; 2; 1; 2]%nat [0; 2; 4]%nat |}.

Definition y3 : list Q := [1; 1; 2].

Definition path_params (grid : option (list Q)) (init : option addr)
    (thetas mon : bool) (offset scale : option (list Q)) : params Q :=
  {| eps := 1 # 1000; n_alphas := 4; alphas := grid; coef_init := init;
     max_iter := 2; gap_freq := 10; max_epochs := 50000; p0 := 10;
     verbose := 0; verbose_inner := 0; tol := 1 # 10; prune := 0;
     return_thetas := thetas; monitor := mon;
     X_offset := offset; X_scale := scale |}.

(** The unsorted grid of the specification's scenario. *)
Definition unsorted_grid : list Q := [1 # 100; 1 # 2; 1 # 10].

(** A caller's heap with one array, used as [coef_init], and a second heap
    that holds the same array next to another one. *)
Definition caller_heap : heap Q := [[0; 3]].
Definition second_heap : heap Q := [[0; 3]; [5]].

Definition warm_params : params Q :=
  path_params (Some unsorted_grid) (Some 0%nat) true true None None.
Definition scaled_params : params Q :=
  path_params (Some unsorted_grid) None false false (Some [1; 1]) (Some [2; 2]).
Definition monitor_params : params Q :=
  path_params (Some unsorted_grid) None false true None None.
End Examples.

Module RealExamples.
Import RDtype.
Local Open Scope R_scope.

(** An inner solver over the reals that returns its initial vector, the
    target as dual point, and a single zero gap. *)
Definition still_solution (y w : list xreal) : solution xreal :=
  {| sol_0 := w; sol_1 := y; sol_2 := [Fin 0]; sol_3 := Some [Fin 0];
     w_init_after := w |}.

Definition still_sparse (data : list xreal) (indices indptr : list nat)
    (sc y : list xreal) (alpha : xreal) (w : list xreal) (kw : kwargs xreal)
  : solution xreal :=
  still_solution y w.

Definition still_dense (X : design xreal) (y : list xreal) (alpha : xreal)
    (w : list xreal) (kw : kwargs xreal) : solution xreal :=
  still_solution y w.

Definition real_clock (n : nat) : xreal := Fin (INR n).

Definition X_one : design xreal :=
  {| n_samples := 1; n_features := 1; X_store := Dense [Fin 1] |}.

Definition y_one : list xreal := [Fin 1].

Definition derive_params (n : Z) : params xreal :=
  {| eps := Fin (1 / 2); n_alphas := n; alphas := None; coef_init := None;
     max_iter := 20; gap_freq := 10; max_epochs := 50000; p0 := 10;
     verbose := 0; verbose_inner := 0; tol := Fin (1 / 10); prune := 0;
     return_thetas := false; monitor := false;
     X_offset := None; X_scale := None |}.

Definition zero_eps_params : params xreal :=
  {| eps := Fin 0; n_alphas := 3; alphas := None; coef_init := None;
     max_iter := 20; gap_freq := 10; max_epochs := 50000; p0 := 10;
     verbose := 0; verbose_inner := 0; tol := Fin (1 / 10); prune := 0;
     return_thetas := false; monitor := false;
     X_offset := None; X_scale := None |}.
End RealExamples.

(** ** Inner solvers that break the contract, and more inputs *)

Module FaultyExamples.
Import QDtype Examples.
Local Open Scope Q_scope.

(** Returns no gap at all. *)
Definition mute_solution (y w : list Q) : solution Q :=
  {| sol_0 := w; sol_1 := y; sol_2 := []; sol_3 := Some [];
     w_init_after := w |}.
Definition mute_sparse (data : list Q) (indices indptr : list nat)
    (sc y : list Q) (alpha : Q) (w : list Q) (kw : kwargs Q) : solution Q :=
  mute_solution y w.
Definition mute_dense (X : design Q) (y : list Q) (alpha : Q) (w : list Q)
    (kw : kwargs Q) : solution Q :=
  mute_solution y w.

(** Returns three coefficients, whatever the number of features. *)
Definition long_solution (y w : list Q) : solution Q :=
  {| sol_0 := [0; 0; 0]; sol_1 := y; sol_2 := [0]; sol_3 := Some [0];
     w_init_after := w |}.
Definition long_sparse (data : list Q) (indices indptr : list nat)
    (sc y : list Q) (alpha : Q) (w : list Q) (kw : kwargs Q) : solution Q :=
  long_solution y w.
Definition long_dense (X : design Q) (y : list Q) (alpha : Q) (w : list Q)
    (kw : kwargs Q) : solution Q :=
  long_solution y w.

(** Returns a tuple of three components. *)
Definition triple_solution (y w : list Q) : solution Q :=
  {| sol_0 := w; sol_1 := y; sol_2 := [0]; sol_3 := None;
     w_init_after := w |}.
Definition triple_sparse (data : list Q) (indices indptr : list nat)
    (sc y : list Q) (alpha : Q) (w : list Q) (kw : kwargs Q) : solution Q :=
  triple_solution y w.
Definition triple_dense (X : design Q) (y : list Q) (alpha : Q) (w : list Q)
    (kw : kwargs Q) : solution Q :=
  triple_solution y w.

Definition plain_params : params Q :=
  path_params (Some unsorted_grid) None false false None None.
Definition empty_grid_params : params Q :=
  path_params (Some []) None true true None None.
(** A caller's heap without arrays. *)
Definition no_heap : heap Q := [].

(** A grid to derive, and a target that is too short for [X_dense]. *)
Definition derive_q_params : params Q :=
  path_params None None false false None None.
Definition short_y : list Q := [1].
End FaultyExamples.

Module CanonExamples.
Import QcDtype.

(** The toy matrix, target and solvers of [Examples] on canonical
    rationals. *)
Definition rest_solution (y w : list Qc) : solution Qc :=
  {| sol_0 := w; sol_1 := y; sol_2 := [Q2Qc 0]; sol_3 := Some [Q2Qc 0];
     w_init_after := w |}.

Definition rest_sparse (data : list Qc) (indices indptr : list nat)
    (sc y : list Qc) (alpha : Qc) (w : list Qc) (kw : kwargs Qc)
  : solution Qc :=
  rest_solution y w.

Definition rest_dense (X : design Qc) (y : list Qc) (alpha : Qc)
    (w : list Qc) (kw : kwargs Qc) : solution Qc :=
  rest_solution y w.

Definition canon_clock (n : nat) : Qc := Q2Qc (inject_Z (Z.of_nat n)).

Definition X_unit : design Qc :=
  {| n_samples := 1; n_features := 1; X_store := Dense [Q2Qc 1] |}.

Definition y_unit : list Qc := [Q2Qc 1].

Definition supplied_params (g : list Qc) : params Qc :=
  {| eps := Q2Qc (1 # 2); n_alphas := 100; alphas := Some g;
     coef_init := None;
     max_iter := 20; gap_freq := 10; max_epochs := 50000; p0 := 10;
     verbose := 0; verbose_inner := 0; tol := Q2Qc (1 # 10); prune := 0;
     return_thetas := true; monitor := true;
     X_offset := None; X_scale := None |}.

Definition one_two : list Qc := [Q2Qc 1; Q2Qc 2].
Definition two_one : list Qc := [Q2Qc 2; Q2Qc 1].
End CanonExamples.

(** * Properties *)

(** ** Arrays *)

Section ArrayLemmas.
Context {F : Type} {dt : Dtype F}.

Lemma bind_Ok {A B : Type} (m : res A) (k : A -> res B) (b : B) :
  bind m k = Ok b -> exists a, m = Ok a /\ k a = Ok b.
Proof. destruct m as [a|e]; simpl; [eauto | discriminate]. Qed.

Lemma length_stored (n : nat) (v : list F) : length (stored n v) = n.
Proof.
  unfold stored. destruct (length v =? n) eqn:E.
  - by apply Nat.eqb_eq.
  - apply length_replicate.
Qed.

Lemma stored_exact (n : nat) (v : list F) : length v = n -> stored n v = v.
Proof. intros E. unfold stored. by rewrite (proj2 (Nat.eqb_eq _ _) E). Qed.

Lemma np_setitem_exact (n : nat) (v : list F) :
  length v = n -> np_setitem n v = Ok v.
Proof.
  intros E. unfold np_setitem.
  rewrite (proj2 (Nat.eqb_eq _ _) E). simpl. by rewrite stored_exact.
Qed.

Lemma np_last_nonempty (a : list F) : a <> [] -> np_last a = Ok (final_entry a).
Proof. by destruct a. Qed.

Lemma final_entry_last (a : list F) :
  a <> [] -> Some (final_entry a) = last a.
Proof.
  intros Hne. unfold final_entry.
  induction a as [|x a IH]; [done|].
  destruct a as [|x' a]; [done|].
  change (Some (List.last (x' :: a) f_zero) = last (x' :: a)).
  by apply IH.
Qed.

Lemma length_np_where_from (i : nat) (w : list F) :
  length (np_where_from i (np_neq0 w)) = count_nonzero w.
Proof.
  revert i. induction w as [|x w IH]; intros i; [done|].
  unfold count_nonzero in *. simpl.
  destruct (negb (f_eqb x f_zero)); simpl; by rewrite IH.
Qed.

Lemma length_np_where (w : list F) :
  length (np_where (np_neq0 w)) = count_nonzero w.
Proof. apply length_np_where_from. Qed.

Lemma np_sum_mask_neq0 (w : list F) :
  np_sum_mask (np_neq0 w) = Z.of_nat (count_nonzero w).
Proof.
  induction w as [|x w IH]; [done|].
  unfold count_nonzero in *. simpl. rewrite IH.
  destruct (negb (f_eqb x f_zero)); simpl length; lia.
Qed.

Lemma deref_alloc (h : heap F) (v : list F) : deref (h ++ [v]) (length h) = v.
Proof. unfold deref. by rewrite list_lookup_middle. Qed.

Lemma deref_app_l (h h' : heap F) (a : addr) :
  a < length h -> deref (h ++ h') a = deref h a.
Proof. intros H. unfold deref. by rewrite lookup_app_l. Qed.

Lemma deref_middle (h h' : heap F) (v : list F) :
  deref (h ++ v :: h') (length h) = v.
Proof. unfold deref. by rewrite list_lookup_middle. Qed.

Lemma length_concat_cols (nrow : nat) (cols : list (list F)) :
  Forall (fun c => length c = nrow) cols ->
  length (concat cols) = length cols * nrow.
Proof.
  induction 1 as [|c cols Hc _ IH]; [done|].
  simpl. rewrite length_app, IH, Hc. lia.
Qed.

Lemma column_concat (nrow : nat) (cols : list (list F)) (rest : list F)
    (j : nat) (c : list F) :
  Forall (fun c => length c = nrow) cols ->
  cols !! j = Some c ->
  column nrow (concat cols ++ rest) j = c.
Proof.
  intros Hall. revert j. induction Hall as [|c0 cols Hc Hall IH]; intros j Hj.
  - done.
  - destruct j as [|j]; simpl in Hj.
    + injection Hj as ->. unfold column. simpl.
      rewrite <- app_assoc. by apply take_app_length'.
    + unfold column in *. simpl concat.
      replace (S j * nrow) with (nrow + j * nrow) by lia.
      rewrite <- app_assoc, drop_app_add' by done. by apply IH.
Qed.

Lemma set_column_concat (nrow n : nat) (cols : list (list F)) (v : list F) :
  Forall (fun c => length c = nrow) cols ->
  length v = nrow ->
  length cols < n ->
  set_column nrow (concat cols ++ np_zeros (nrow * (n - length cols)))
             (length cols) v
  = concat (cols ++ [v]) ++ np_zeros (nrow * (n - S (length cols))).
Proof.
  intros Hall Hv Hlt. unfold set_column.
  pose proof (length_concat_cols _ _ Hall) as Hlen.
  rewrite take_app_length' by done.
  rewrite drop_app_add' by done.
  unfold np_zeros. rewrite drop_replicate.
  rewrite concat_app. simpl. rewrite app_nil_r, <- app_assoc.
  do 3 f_equal. nia.
Qed.

Lemma insert_snoc_replicate {A : Type} (l : list A) (x z : A) (n k : nat) :
  length l = k ->
  k < n ->
  <[k := x]> (l ++ replicate (n - k) z) = (l ++ [x]) ++ replicate (n - S k) z.
Proof.
  intros <- Hlt.
  replace (n - length l) with (S (n - S (length l))) by lia.
  replace (length l) with (length l + 0) at 1 by lia.
  rewrite insert_app_r. simpl. by rewrite <- app_assoc.
Qed.
End ArrayLemmas.

(** ** Sorting *)

Section SortLemmas.
Context {F : Type} {dt : Dtype F}.

Lemma insert_sorted_perm (x : F) (l : list F) :
  Permutation (insert_sorted x l) (x :: l).
Proof.
  induction l as [|y l IH]; simpl; [done|].
  destruct (f_leb x y); [done|].
  rewrite IH. apply perm_swap.
Qed.

Lemma np_sort_perm (l : list F) : Permutation (np_sort l) l.
Proof.
  induction l as [|x l IH]; simpl; [done|].
  unfold np_sort in *. by rewrite insert_sorted_perm, IH.
Qed.

Lemma insert_sorted_sorted (x : F) (l : list F) :
  leb_total -> leb_trans ->
  StronglySorted (fun a b => f_leb a b = true) l ->
  StronglySorted (fun a b => f_leb a b = true) (insert_sorted x l).
Proof.
  intros Htot Htrans. induction 1 as [|y l Hs IH Hy]; simpl.
  - repeat constructor.
  - destruct (f_leb x y) eqn:E.
    + constructor; [by constructor|].
      constructor; [done|].
      eapply Forall_impl; [exact Hy|]. intros b Hb. by eapply Htrans.
    + constructor; [done|].
      rewrite insert_sorted_perm. constructor; [|done].
      destruct (Htot x y); congruence.
Qed.

Lemma np_sort_sorted (l : list F) :
  leb_total -> leb_trans ->
  StronglySorted (fun a b => f_leb a b = true) (np_sort l).
Proof.
  intros Htot Htrans. induction l as [|x l IH]; [constructor|].
  by apply insert_sorted_sorted.
Qed.

Lemma StronglySorted_snoc {A : Type} (R : A -> A -> Prop) (l : list A) (x : A) :
  StronglySorted R l -> Forall (fun a => R a x) l ->
  StronglySorted R (l ++ [x]).
Proof.
  induction 1 as [|a l Hs IH Ha]; intros Hx; simpl.
  - repeat constructor.
  - apply Forall_cons_1 in Hx as [Hax Hx].
    constructor; [by apply IH|].
    apply Forall_app. split; [done | by constructor].
Qed.

Lemma StronglySorted_rev {A : Type} (R : A -> A -> Prop) (l : list A) :
  StronglySorted R l -> StronglySorted (fun a b => R b a) (rev l).
Proof.
  induction 1 as [|a l Hs IH Ha]; simpl; [constructor|].
  apply StronglySorted_snoc; [done|].
  by rewrite <- Permutation_rev.
Qed.

Lemma StronglySorted_NoDup {A : Type} (R : A -> A -> Prop) (l : list A) :
  NoDup l -> StronglySorted R l ->
  StronglySorted (fun a b => R a b /\ a <> b) l.
Proof.
  intros Hnd. induction 1 as [|a l Hs IH Ha]; [constructor|].
  apply NoDup_cons in Hnd as [Hnotin Hnd].
  constructor; [by apply IH|].
  apply Forall_forall. intros b Hb. split.
  - by eapply Forall_forall in Ha.
  - intros ->. done.
Qed.

Lemma rev_np_sort_descending (l : list F) :
  leb_total -> leb_trans -> descending (rev (np_sort l)).
Proof.
  intros Htot Htrans. unfold descending.
  by apply (StronglySorted_rev (fun a b => f_leb a b = true)), np_sort_sorted.
Qed.
End SortLemmas.

(** ** The loop computes the run written out above *)

Section Refinement.
Context {F : Type} {dt : Dtype F}.
Variable celer_sparse :
  list F -> list nat -> list nat -> list F -> list F -> F -> list F ->
  kwargs F -> solution F.
Variable celer_dense :
  design F -> list F -> F -> list F -> kwargs F -> solution F.
Variable clock : nat -> F.
Variable h0 : heap F.
Variable X : design F.
Variable y : list F.
Variable p : params F.
Variable sc : list F.
Variable grid : list F.

Hypothesis coef_init_valid : forall a, coef_init p = Some a -> a < length h0.

Local Abbreviation solve := (invoke celer_sparse celer_dense).
Local Abbreviation trace' := (trace celer_sparse celer_dense h0 X y p sc grid).
Local Abbreviation state_of' :=
  (state_of celer_sparse celer_dense clock h0 X p grid).
Local Abbreviation call_at' := (call_at celer_sparse celer_dense h0 X y p sc).
Local Abbreviation col_of' := (col_of celer_sparse celer_dense X).
Local Abbreviation coefs_of' := (coefs_of celer_sparse celer_dense X grid).

Lemma for_range_app (body : nat -> pstate F -> res (pstate F))
    (l1 l2 : list nat) (s : pstate F) :
  for_range body (l1 ++ l2) s
  = let* s' := for_range body l1 s in for_range body l2 s'.
Proof.
  revert s. induction l1 as [|t l1 IH]; intros s; simpl; [done|].
  destruct (body t s); simpl; [apply IH | done].
Qed.

Lemma length_trace (k : nat) : k <= length grid -> length (trace' k) = k.
Proof.
  induction k as [|k IH]; intros Hk; [done|]. simpl.
  destruct (lookup_lt_is_Some_2 grid k ltac:(lia)) as [alpha Ha].
  rewrite Ha, length_app, IH by lia. simpl. lia.
Qed.

Lemma trace_S (k : nat) (alpha : F) :
  grid !! k = Some alpha ->
  trace' (S k)
  = trace' k ++ [(S (length h0) + k, call_at' (snd <$> last (trace' k)) alpha)].
Proof. intros Ha. simpl. by rewrite Ha. Qed.

Lemma trace_prefix (k k' : nat) :
  k <= k' -> exists rest, trace' k' = trace' k ++ rest.
Proof.
  induction 1 as [|k' Hle [rest IH]].
  - exists []. by rewrite app_nil_r.
  - simpl. destruct (grid !! k') as [alpha|].
    + eexists. rewrite IH, <- app_assoc. reflexivity.
    + by exists rest.
Qed.

Lemma cols_length (tr : list (addr * solver_call F)) :
  Forall (fun c => length c = n_features X)
         (map (fun c => col_of' (snd c)) tr).
Proof.
  apply Forall_map, Forall_forall. intros c _. apply length_stored.
Qed.

Lemma column_coefs_of (tr : list (addr * solver_call F)) (t : nat)
    (c : addr * solver_call F) :
  tr !! t = Some c ->
  column (n_features X) (coefs_of' tr) t = col_of' (snd c).
Proof.
  intros Ht. unfold coefs_of. apply column_concat; [apply cols_length|].
  by rewrite list_lookup_fmap, Ht.
Qed.

Lemma heap_store_coefs (c c' : list F) (ws : list (list F)) :
  <[length h0 := c']> (h0 ++ c :: ws) = h0 ++ c' :: ws.
Proof.
  replace (length h0) with (length h0 + 0) at 1 by lia.
  by rewrite insert_app_r.
Qed.

Lemma heap_store_last (c w w' : list F) (ws : list (list F)) :
  <[S (length h0) + length ws := w']> (h0 ++ c :: ws ++ [w])
  = h0 ++ c :: ws ++ [w'].
Proof.
  replace (S (length h0) + length ws) with (length h0 + S (length ws)) by lia.
  rewrite insert_app_r. simpl. do 2 f_equal.
  replace (length ws) with (length ws + 0) at 1 by lia.
  by rewrite insert_app_r.
Qed.

Lemma warm_start_state_of (tr : list (addr * solver_call F)) :
  warm_start (length h0) (n_features X) p (length tr) (state_of' tr)
  = (S (length h0) + length tr,
     h0 ++ coefs_of' tr
        :: map (fun c => w_init_after (solve (snd c))) tr
           ++ [w_init_at celer_sparse celer_dense h0 X p (snd <$> last tr)],
     hint_at celer_sparse celer_dense h0 X p (snd <$> last tr)).
Proof.
  unfold warm_start, alloc. simpl st_heap.
  set (ws := map (fun c => w_init_after (solve (snd c))) tr).
  assert (Hlen : length (h0 ++ coefs_of' tr :: ws) = S (length h0) + length tr).
  { rewrite length_app. simpl. unfold ws. rewrite length_map. lia. }
  destruct (0 <? length tr) eqn:Hpos.
  - apply Nat.ltb_lt in Hpos.
    destruct (last tr) as [c|] eqn:Hlast;
      [|apply last_None in Hlast; subst tr; simpl in Hpos; lia].
    rewrite deref_alloc, deref_middle.
    rewrite (column_coefs_of tr (length tr - 1) c)
      by (rewrite last_lookup in Hlast;
          by replace (length tr - 1) with (pred (length tr)) by lia).
    rewrite length_np_where, Hlen. simpl.
    by rewrite <- app_assoc.
  - apply Nat.ltb_ge in Hpos.
    assert (tr = []) as -> by (destruct tr; [done | simpl in Hpos; lia]).
    simpl. destruct (coef_init p) as [a|] eqn:Hci.
    + rewrite deref_alloc. rewrite (deref_app_l h0) by auto.
      rewrite np_sum_mask_neq0. simpl.
      rewrite length_app. simpl.
      replace (length h0 + 1) with (S (length h0 + 0)) by lia.
      by rewrite <- app_assoc.
    + rewrite length_app. simpl.
      replace (length h0 + 1) with (S (length h0 + 0)) by lia.
      by rewrite <- app_assoc.
Qed.
Lemma state_of_snoc (tr : list (addr * solver_call F)) (l : addr)
    (c : solver_call F) :
  length tr < length grid ->
  state_of' (tr ++ [(l, c)])
  = {| st_heap :=
         h0 ++ coefs_of' (tr ++ [(l, c)])
            :: map (fun c => w_init_after (solve (snd c))) tr
               ++ [w_init_after (solve c)];
       st_thetas := <[length tr := stored (n_samples X) (sol_1 (solve c))]>
                      (st_thetas (state_of' tr));
       st_dual_gaps := <[length tr := gap_of celer_sparse celer_dense c]>
                         (st_dual_gaps (state_of' tr));
       st_all_times :=
         <[length tr := f_sub (clock (2 * length tr + 1)) (clock (2 * length tr))]>
           (st_all_times (state_of' tr));
       st_gaps_per_alpha :=
         if monitor p
         then st_gaps_per_alpha (state_of' tr) ++ [sol_2 (solve c)]
         else st_gaps_per_alpha (state_of' tr);
       st_times_per_alpha :=
         if monitor p
         then st_times_per_alpha (state_of' tr) ++ [default [] (sol_3 (solve c))]
         else st_times_per_alpha (state_of' tr);
       st_p0 := kw_p0 (call_kw c);
       st_calls := st_calls (state_of' tr) ++ [(l, c)];
       st_warnings :=
         if f_ltb (tol p) (gap_of celer_sparse celer_dense c)
         then st_warnings (state_of' tr) ++ [(length tr, convergence_message)]
         else st_warnings (state_of' tr) |}.
Proof.
  intros Hlt. unfold state_of. cbn [st_thetas st_dual_gaps st_all_times
    st_gaps_per_alpha st_times_per_alpha st_calls st_warnings].
  rewrite !map_app, length_app, last_snoc. cbn [length map snd].
  replace (length tr + 1) with (S (length tr)) by lia.
  f_equal.
  - by rewrite insert_snoc_replicate by (by rewrite ?length_map).
  - unfold np_zeros.
    by rewrite insert_snoc_replicate by (by rewrite ?length_map).
  - unfold np_zeros.
    rewrite seq_S, map_app. cbn [map]. rewrite Nat.add_0_l.
    by rewrite insert_snoc_replicate
      by (by rewrite ?length_map, ?length_seq).
  - by destruct (monitor p).
  - by destruct (monitor p).
  - rewrite imap_app, concat_app. cbn [imap concat].
    unfold warning_of at 2. cbn [snd]. rewrite Nat.add_0_r.
    destruct (f_ltb _ _); [done | by rewrite !app_nil_r].
Qed.

Lemma step_state_of (tr : list (addr * solver_call F)) (alpha : F) :
  grid !! length tr = Some alpha ->
  step celer_sparse celer_dense clock (length h0) X sc y grid p (length tr)
       (state_of' tr)
  = let c := call_at' (snd <$> last tr) alpha in
    let* _ := check_call celer_sparse celer_dense X p c in
    Ok (state_of' (tr ++ [(S (length h0) + length tr, c)])).
Proof.
  intros Ha. pose proof (lookup_lt_Some _ _ _ Ha) as Hlt.
  unfold step. rewrite warm_start_state_of, Ha.
  set (ws := map (fun c => w_init_after (solve (snd c))) tr).
  set (w := w_init_at _ _ _ _ _ _).
  set (hint := hint_at _ _ _ _ _ _).
  assert (Hws : length ws = length tr) by (unfold ws; by rewrite length_map).
  remember (S (length h0) + length tr) as l eqn:Hl.
  assert (Hd : deref (h0 ++ coefs_of' tr :: ws ++ [w]) l = w).
  { replace (h0 ++ coefs_of' tr :: ws ++ [w])
      with ((h0 ++ coefs_of' tr :: ws) ++ [w]) by (by rewrite <- app_assoc).
    replace l with (length (h0 ++ coefs_of' tr :: ws)).
    - apply deref_alloc.
    - rewrite length_app. simpl. lia. }
  cbn [bind]. rewrite Hd.
  change (make_call X sc y alpha w (make_kwargs p hint))
    with (call_at' (snd <$> last tr) alpha).
  set (c := call_at' (snd <$> last tr) alpha).
  unfold check_call.
  destruct (np_last (sol_2 (solve c))) as [gap|e] eqn:Hgap; [|done].
  assert (gap = gap_of celer_sparse celer_dense c) as ->.
  { unfold np_last in Hgap. destruct (sol_2 (solve c)) eqn:E; [done|].
    unfold gap_of. rewrite E. congruence. }
  cbn [bind]. unfold np_setitem.
  destruct (_ || _); [|done]. cbn [bind].
  destruct (_ || _); [|done]. cbn [bind].
  assert (Hh2 : <[l := w_init_after (solve c)]> (h0 ++ coefs_of' tr :: ws ++ [w])
                = h0 ++ coefs_of' tr :: ws ++ [w_init_after (solve c)]).
  { rewrite Hl, <- Hws. apply heap_store_last. }
  rewrite Hh2, deref_middle, heap_store_coefs.
  assert (Hcoefs :
    set_column (n_features X) (coefs_of' tr) (length tr)
               (stored (n_features X) (sol_0 (solve c)))
    = coefs_of' (tr ++ [(l, c)])).
  { unfold coefs_of.
    rewrite <- (length_map (fun c => col_of' (snd c)) tr).
    rewrite set_column_concat;
      [|apply cols_length|apply length_stored|by rewrite length_map].
    rewrite map_app, !length_map, length_app. simpl.
    do 3 f_equal. lia. }
  rewrite Hcoefs.
  rewrite (state_of_snoc tr l c Hlt).
  assert (kw_p0 (call_kw c) = hint) as ->
    by (unfold c, call_at, make_call; by destruct (X_store X)).
  destruct (monitor p) eqn:Hmon.
  - destruct (sol_3 (solve c)) as [times|] eqn:Htimes; [|done]. done.
  - done.
Qed.

Lemma check_calls_app (cs1 cs2 : list (addr * solver_call F)) :
  check_calls celer_sparse celer_dense X p (cs1 ++ cs2)
  = let* _ := check_calls celer_sparse celer_dense X p cs1 in
    check_calls celer_sparse celer_dense X p cs2.
Proof.
  induction cs1 as [|c cs1 IH]; simpl; [done|].
  destruct (check_call _ _ _ _ _); simpl; [apply IH | done].
Qed.

Lemma loop_state_of (k : nat) :
  k <= length grid ->
  for_range (step celer_sparse celer_dense clock (length h0) X sc y grid p)
            (seq 0 k) (state_of' [])
  = let* _ := check_calls celer_sparse celer_dense X p (trace' k) in
    Ok (state_of' (trace' k)).
Proof.
  induction k as [|k IH]; intros Hk; [done|].
  destruct (lookup_lt_is_Some_2 grid k ltac:(lia)) as [alpha Ha].
  rewrite seq_S, for_range_app, IH by lia.
  rewrite (trace_S k alpha Ha), check_calls_app.
  destruct (check_calls _ _ _ _ (trace' k)); [|done].
  simpl. pose proof (length_trace k ltac:(lia)) as Hlen.
  rewrite <- Hlen at 1. rewrite (step_state_of _ alpha) by (by rewrite Hlen).
  rewrite Hlen. cbv zeta.
  destruct (check_call _ _ _ _ _) as [[]|]; done.
Qed.
Lemma trace_lookup (k t : nat) :
  t < k -> k <= length grid ->
  exists alpha,
    grid !! t = Some alpha /\
    trace' k !! t
    = Some (S (length h0) + t, call_at' (snd <$> last (trace' t)) alpha).
Proof.
  intros Ht Hk.
  destruct (lookup_lt_is_Some_2 grid t ltac:(lia)) as [alpha Ha].
  exists alpha. split; [done|].
  destruct (trace_prefix (S t) k ltac:(lia)) as [rest ->].
  rewrite (trace_S t alpha Ha).
  apply lookup_app_l_Some, list_lookup_middle.
  by rewrite length_trace by lia.
Qed.

Lemma last_trace_S (k t : nat) :
  S t < k -> k <= length grid -> last (trace' (S t)) = trace' k !! t.
Proof.
  intros Ht Hk.
  destruct (trace_lookup k t ltac:(lia) Hk) as (alpha & Ha & ->).
  by rewrite (trace_S t alpha Ha), last_snoc.
Qed.

Lemma map_call_alpha_trace (k : nat) :
  k <= length grid ->
  map (fun c => call_alpha (snd c)) (trace' k) = take k grid.
Proof.
  induction k as [|k IH]; intros Hk; [done|].
  destruct (lookup_lt_is_Some_2 grid k ltac:(lia)) as [alpha Ha].
  rewrite (trace_S k alpha Ha), map_app, IH, (take_S_r _ _ _ Ha) by lia.
  simpl. unfold call_at, make_call. by destruct (X_store X).
Qed.
End Refinement.

Section RunLemmas.
Context {F : Type} {dt : Dtype F}.
Variable celer_sparse :
  list F -> list nat -> list nat -> list F -> list F -> F -> list F ->
  kwargs F -> solution F.
Variable celer_dense :
  design F -> list F -> F -> list F -> kwargs F -> solution F.
Variable clock : nat -> F.

Local Abbreviation solve := (invoke celer_sparse celer_dense).

(** [celer_path] is the run written out in [trace] and [state_of]. *)
Lemma celer_path_unfold (h0 : heap F) (X : design F) (y : list F)
    (p : params F) :
  (forall a, coef_init p = Some a -> a < length h0) ->
  celer_path celer_sparse celer_dense clock h0 X y p
  = let* sc := sparse_scaling X p in
    let* grid := make_alphas X y p in
    let tr := trace celer_sparse celer_dense h0 X y p sc grid (length grid) in
    let* _ := check_calls celer_sparse celer_dense X p tr in
    Ok (outcome_of celer_sparse celer_dense clock h0 X p grid tr).
Proof.
  intros Hci. unfold celer_path.
  destruct (sparse_scaling X p) as [sc|]; [|done].
  destruct (make_alphas X y p) as [grid|]; [|done].
  cbn [bind alloc]. cbv zeta.
  replace (initial_state (h0 ++ [np_zeros (n_features X * length grid)])
                         (length grid) (n_samples X) p)
    with (state_of celer_sparse celer_dense clock h0 X p grid [])
    by (unfold state_of, initial_state, coefs_of; simpl;
        rewrite Nat.sub_0_r; by destruct (monitor p)).
  rewrite loop_state_of by done.
  destruct (check_calls _ _ _ _ _); [|done].
  cbn [bind]. unfold outcome_of. do 2 f_equal.
  cbn [state_of st_heap]. by rewrite deref_middle.
Qed.

Lemma inputs_ok_valid (h0 : heap F) (X : design F) (y : list F)
    (p : params F) :
  inputs_ok h0 X y p -> forall a, coef_init p = Some a -> a < length h0.
Proof.
  intros (_ & _ & Hci & _) a Ha. rewrite Ha in Hci.
  destruct Hci as (w & Hw & _). by eapply lookup_lt_Some.
Qed.

Lemma sparse_scaling_ok (X : design F) (p : params F) :
  offset_ok p ->
  sparse_scaling X p
  = Ok (match X_offset p, X_scale p with
        | Some o, Some s => zip_with f_div o s
        | _, _ => np_zeros (n_features X)
        end).
Proof.
  unfold offset_ok, sparse_scaling, np_divide.
  destruct (X_offset p) as [o|]; [|done].
  destruct (X_scale p) as [s|]; [|done].
  intros ->. by rewrite Nat.eqb_refl.
Qed.

Lemma np_linspace_ok (start stop : F) (num : Z) :
  (0 <= num)%Z -> exists l, np_linspace start stop num = Ok l.
Proof.
  intros H. unfold np_linspace.
  destruct (num <? 0)%Z eqn:E; [apply Z.ltb_lt in E; lia|].
  destruct (Z.to_nat num) as [|[|n]]; eauto.
Qed.

Lemma make_alphas_ok (h0 : heap F) (X : design F) (y : list F)
    (p : params F) :
  inputs_ok h0 X y p -> exists grid, make_alphas X y p = Ok grid.
Proof.
  intros (Hy & Hnf & _ & Hn). unfold make_alphas.
  destruct (alphas p) as [a|]; [eauto|].
  unfold alpha_max, XT_dot. rewrite Hy, Nat.eqb_refl. cbn [bind].
  destruct (n_features X) as [|nf]; [lia|].
  cbn [seq map np_max bind]. unfold np_logspace.
  destruct (np_linspace_ok f_zero (f_log10 (eps p)) (n_alphas p)) as [l ->];
    [by apply Hn|].
  cbn [bind]. eauto.
Qed.

Lemma length_w_init_at (h0 : heap F) (X : design F) (y : list F)
    (p : params F) (prev : option (solver_call F)) :
  inputs_ok h0 X y p ->
  length (w_init_at celer_sparse celer_dense h0 X p prev) = n_features X.
Proof.
  intros (_ & _ & Hci & _). unfold w_init_at.
  destruct prev as [c|]; [apply length_stored|].
  destruct (coef_init p) as [a|].
  - destruct Hci as (w & Hw & Hlen). unfold deref. by rewrite Hw.
  - apply length_replicate.
Qed.

Lemma check_call_ok (h0 : heap F) (X : design F) (y : list F)
    (p : params F) (sc : list F) (prev : option (solver_call F)) (alpha : F) :
  inputs_ok h0 X y p ->
  solver_contract solve ->
  check_call celer_sparse celer_dense X p
    (call_at celer_sparse celer_dense h0 X y p sc prev alpha) = Ok tt.
Proof.
  intros Hin Hsol. set (c := call_at _ _ _ _ _ _ _ _ _).
  destruct (Hsol c) as (H0 & H1 & H2 & H3).
  assert (Hw : call_w_init c
               = w_init_at celer_sparse celer_dense h0 X p prev)
    by (unfold c, call_at, make_call; by destruct (X_store X)).
  assert (Hy : call_y c = y)
    by (unfold c, call_at, make_call; by destruct (X_store X)).
  rewrite Hw, (length_w_init_at h0 X y) in H0 by done.
  rewrite Hy in H1. destruct Hin as (Hlen & _). rewrite Hlen in H1.
  unfold check_call.
  rewrite np_last_nonempty, !np_setitem_exact by done. cbn [bind].
  destruct (monitor p); [|done]. by destruct (sol_3 (solve c)).
Qed.

Lemma check_calls_ok (h0 : heap F) (X : design F) (y : list F)
    (p : params F) (sc grid : list F) (k : nat) :
  inputs_ok h0 X y p ->
  solver_contract solve ->
  check_calls celer_sparse celer_dense X p
    (trace celer_sparse celer_dense h0 X y p sc grid k) = Ok tt.
Proof.
  intros Hin Hsol. induction k as [|k IH]; [done|]. simpl.
  destruct (grid !! k) as [alpha|]; [|done].
  rewrite check_calls_app, IH. simpl.
  by rewrite (check_call_ok h0 X y).
Qed.

(** Under the contracts the run raises nothing. *)
Lemma celer_path_total (h0 : heap F) (X : design F) (y : list F)
    (p : params F) :
  inputs_ok h0 X y p ->
  offset_ok p ->
  solver_contract solve ->
  exists sc grid,
    sparse_scaling X p = Ok sc /\
    make_alphas X y p = Ok grid /\
    celer_path celer_sparse celer_dense clock h0 X y p
    = Ok (outcome_of celer_sparse celer_dense clock h0 X p grid
            (trace celer_sparse celer_dense h0 X y p sc grid (length grid))).
Proof.
  intros Hin Hoff Hsol.
  destruct (make_alphas_ok h0 X y p Hin) as [grid Hgrid].
  eexists _, grid. split; [by apply sparse_scaling_ok|]. split; [done|].
  rewrite celer_path_unfold by (by eapply inputs_ok_valid).
  rewrite sparse_scaling_ok, Hgrid by done. cbn [bind]. cbv zeta.
  by rewrite (check_calls_ok h0 X y).
Qed.

Lemma solver_contract_for_of (p : params F) :
  solver_contract solve -> solver_contract_for p solve.
Proof.
  intros Hsol. split.
  - intros c. destruct (Hsol c) as (H0 & H1 & H2 & _). by repeat split.
  - intros _ c. by destruct (Hsol c) as (_ & _ & _ & H3).
Qed.

Lemma check_calls_ok_for (h0 : heap F) (X : design F) (y : list F)
    (p : params F) (sc grid : list F) (k : nat) :
  inputs_ok h0 X y p ->
  solver_contract_for p solve ->
  check_calls celer_sparse celer_dense X p
    (trace celer_sparse celer_dense h0 X y p sc grid k) = Ok tt.
Proof.
  intros Hin [Hsol Htimes]. induction k as [|k IH]; [done|]. simpl.
  destruct (grid !! k) as [alpha|]; [|done].
  rewrite check_calls_app, IH. simpl.
  set (prev := snd <$> last _).
  destruct (Hsol (call_at celer_sparse celer_dense h0 X y p sc prev alpha))
    as (H0 & H1 & H2).
  assert (Hw : call_w_init
                 (call_at celer_sparse celer_dense h0 X y p sc prev alpha)
               = w_init_at celer_sparse celer_dense h0 X p prev)
    by (unfold call_at, make_call; by destruct (X_store X)).
  assert (Hy : call_y (call_at celer_sparse celer_dense h0 X y p sc prev alpha)
               = y)
    by (unfold call_at, make_call; by destruct (X_store X)).
  rewrite Hw, (length_w_init_at h0 X y) in H0 by done.
  rewrite Hy in H1. pose proof Hin as (Hlen & _). rewrite Hlen in H1.
  unfold check_call.
  rewrite np_last_nonempty, !np_setitem_exact by done. cbn [bind].
  destruct (monitor p) eqn:Hmon; [|done].
  specialize (Htimes eq_refl
                (call_at celer_sparse celer_dense h0 X y p sc prev alpha)).
  by destruct (sol_3 _).
Qed.

(** Under the contract for [p] the run raises nothing. *)
Lemma celer_path_total_for (h0 : heap F) (X : design F) (y : list F)
    (p : params F) :
  inputs_ok h0 X y p ->
  offset_ok p ->
  solver_contract_for p solve ->
  exists sc grid,
    sparse_scaling X p = Ok sc /\
    make_alphas X y p = Ok grid /\
    celer_path celer_sparse celer_dense clock h0 X y p
    = Ok (outcome_of celer_sparse celer_dense clock h0 X p grid
            (trace celer_sparse celer_dense h0 X y p sc grid (length grid))).
Proof.
  intros Hin Hoff Hsol.
  destruct (make_alphas_ok h0 X y p Hin) as [grid Hgrid].
  eexists _, grid. split; [by apply sparse_scaling_ok|]. split; [done|].
  rewrite celer_path_unfold by (by eapply inputs_ok_valid).
  rewrite sparse_scaling_ok, Hgrid by done. cbn [bind]. cbv zeta.
  by rewrite (check_calls_ok_for h0 X y).
Qed.

Lemma make_alphas_supplied (X : design F) (y : list F) (p : params F)
    (grid a : list F) :
  make_alphas X y p = Ok grid -> alphas p = Some a ->
  grid = rev (np_sort a) /\ length grid = length a.
Proof.
  unfold make_alphas. intros Hgrid Ha. rewrite Ha in Hgrid.
  injection Hgrid as <-. split; [done|].
  by rewrite length_rev, (Permutation_length (np_sort_perm a)).
Qed.

(** Whatever the solvers do, a run that returns is the run written out. *)
Lemma celer_path_Ok (h0 : heap F) (X : design F) (y : list F)
    (p : params F) (out : outcome F) :
  (forall a, coef_init p = Some a -> a < length h0) ->
  celer_path celer_sparse celer_dense clock h0 X y p = Ok out ->
  exists sc grid,
    sparse_scaling X p = Ok sc /\
    make_alphas X y p = Ok grid /\
    out = outcome_of celer_sparse celer_dense clock h0 X p grid
            (trace celer_sparse celer_dense h0 X y p sc grid (length grid)).
Proof.
  intros Hci. rewrite celer_path_unfold by done. intros H.
  apply bind_Ok in H as (sc & Hsc & H).
  apply bind_Ok in H as (grid & Hgrid & H). cbv zeta in H.
  apply bind_Ok in H as (? & _ & H).
  exists sc, grid. repeat split; congruence.
Qed.
End RunLemmas.

(** ** Shape of the calls *)

Section CallLemmas.
Context {F : Type} {dt : Dtype F}.
Variable celer_sparse :
  list F -> list nat -> list nat -> list F -> list F -> F -> list F ->
  kwargs F -> solution F.
Variable celer_dense :
  design F -> list F -> F -> list F -> kwargs F -> solution F.
Variable clock : nat -> F.
Variable h0 : heap F.
Variable X : design F.
Variable y : list F.
Variable p : params F.
Variable sc : list F.
Variable grid : list F.

Local Abbreviation solve := (invoke celer_sparse celer_dense).
Local Abbreviation trace' := (trace celer_sparse celer_dense h0 X y p sc grid).
Local Abbreviation call_at' := (call_at celer_sparse celer_dense h0 X y p sc).
Local Abbreviation outcome_of' :=
  (outcome_of celer_sparse celer_dense clock h0 X p grid).

Lemma call_at_w_init (prev : option (solver_call F)) (alpha : F) :
  call_w_init (call_at' prev alpha)
  = w_init_at celer_sparse celer_dense h0 X p prev.
Proof. unfold call_at, make_call. by destruct (X_store X). Qed.

Lemma call_at_kw (prev : option (solver_call F)) (alpha : F) :
  call_kw (call_at' prev alpha)
  = make_kwargs p (hint_at celer_sparse celer_dense h0 X p prev).
Proof. unfold call_at, make_call. by destruct (X_store X). Qed.

Lemma call_at_scaling (prev : option (solver_call F)) (alpha : F) :
  call_scaling (call_at' prev alpha)
  = if data_is_sparse X then Some sc else None.
Proof. unfold call_at, make_call, data_is_sparse. by destruct (X_store X). Qed.

Lemma call_at_alpha (prev : option (solver_call F)) (alpha : F) :
  call_alpha (call_at' prev alpha) = alpha.
Proof. unfold call_at, make_call. by destruct (X_store X). Qed.

(** The call of turn [t], from the call of the turn before. *)
Lemma trace_turn (t : nat) (l : addr) (c : solver_call F) :
  trace' (length grid) !! t = Some (l, c) ->
  exists alpha,
    grid !! t = Some alpha /\
    l = S (length h0) + t /\
    c = call_at' (snd <$> match t with
                          | 0 => None
                          | S t' => trace' (length grid) !! t'
                          end) alpha.
Proof.
  intros Ht. pose proof (lookup_lt_Some _ _ _ Ht) as Hlt.
  rewrite length_trace in Hlt by done.
  destruct (trace_lookup celer_sparse celer_dense h0 X y p sc grid
              (length grid) t Hlt ltac:(done)) as (alpha & Ha & Hc).
  rewrite Hc in Ht. injection Ht as <- <-.
  exists alpha. split; [done|]. split; [done|].
  destruct t as [|t']; [done|].
  by rewrite (last_trace_S _ _ _ _ _ _ _ _ (length grid)) by done.
Qed.

(** The heap a run leaves: the caller's arrays, then [coefs], then the
    [w_init] buffers as the solver left them. *)
Lemma out_heap_old (tr : list (addr * solver_call F)) (a : addr) :
  a < length h0 -> deref (out_heap (outcome_of' tr)) a = deref h0 a.
Proof. intros Ha. unfold out_heap. simpl. by apply deref_app_l. Qed.

Lemma out_heap_coefs (tr : list (addr * solver_call F)) :
  deref (out_heap (outcome_of' tr)) (length h0)
  = coefs_of celer_sparse celer_dense X grid tr.
Proof. unfold out_heap. simpl. apply deref_middle. Qed.

Lemma out_heap_buffer (tr : list (addr * solver_call F)) (t : nat)
    (l : addr) (c : solver_call F) :
  tr !! t = Some (l, c) ->
  out_heap (outcome_of' tr) !! (S (length h0) + t)
  = Some (w_init_after (solve c)).
Proof.
  intros Ht. unfold out_heap. simpl.
  rewrite lookup_app_r by lia.
  replace (S (length h0 + t) - length h0) with (S t) by lia. simpl.
  by rewrite list_lookup_fmap, Ht.
Qed.

Lemma out_results_base (tr : list (addr * solver_call F)) :
  exists more,
    out_results (outcome_of' tr)
    = [Arr1 grid;
       Arr2F (n_features X) (length grid)
             (coefs_of celer_sparse celer_dense X grid tr);
       Arr1 (map (fun c => gap_of celer_sparse celer_dense (snd c)) tr
             ++ np_zeros (length grid - length tr))]
      ++ more.
Proof.
  unfold outcome_of, assemble. simpl.
  destruct (return_thetas p); [destruct (monitor p)|]; eexists; reflexivity.
Qed.
End CallLemmas.

(** ** The claims about the path controller *)

Section PathClaims.
Context {F : Type} {dt : Dtype F}.
Variable celer_sparse :
  list F -> list nat -> list nat -> list F -> list F -> F -> list F ->
  kwargs F -> solution F.
Variable celer_dense :
  design F -> list F -> F -> list F -> kwargs F -> solution F.
Variable clock : nat -> F.

Local Abbreviation solve := (invoke celer_sparse celer_dense).
Local Abbreviation run := (celer_path celer_sparse celer_dense clock).

(** C1.  Warm start.  The run makes one call per value of the grid that
    [make_alphas] builds (the caller's grid sorted, or the derived one), in
    the order of that grid, and returns the grid first.  The call of
    turn [t] is handed a buffer at a fresh address [l]: it is neither the
    address of [coefs] ([length h0]) nor an address of the caller's heap,
    and what the solver writes into it stays there.  For [t > 0] the
    buffer holds column [t - 1] of [coefs], which the run still returns
    unchanged, and the working-set size is
    [max (nonzero count of that column, 1)], hence at least 1.  At [t = 0]
    with a caller's [coef_init] the buffer holds a copy of that vector,
    which the run leaves untouched, and the size is
    [max (its nonzero count, p0)]; without [coef_init] the buffer holds
    zeros and the size is [p0]. *)
Theorem warm_start_copies_previous_solution
    (h0 : heap F) (X : design F) (y : list F) (p : params F) :
  inputs_ok h0 X y p ->
  offset_ok p ->
  solver_contract_for p solve ->
  exists out grid coefs,
    run h0 X y p = Ok out /\
    make_alphas X y p = Ok grid /\
    (forall a, alphas p = Some a ->
     grid = rev (np_sort a) /\ length grid = length a) /\
    map (fun c => call_alpha (snd c)) (out_calls out) = grid /\
    out_results out !! 0 = Some (Arr1 grid) /\
    out_results out !! 1 = Some (Arr2F (n_features X) (length grid) coefs) /\
    deref (out_heap out) (length h0) = coefs /\
    length (out_calls out) = length grid /\
    forall t l c,
      out_calls out !! t = Some (l, c) ->
      l = S (length h0) + t /\
      out_heap out !! l = Some (w_init_after (solve c)) /\
      match t with
      | 0 =>
          match coef_init p with
          | Some a =>
              a < length h0 /\
              call_w_init c = deref h0 a /\
              deref (out_heap out) a = deref h0 a /\
              kw_p0 (call_kw c)
              = Z.max (Z.of_nat (count_nonzero (deref h0 a))) (p0 p)
          | None =>
              call_w_init c = np_zeros (n_features X) /\
              kw_p0 (call_kw c) = p0 p
          end
      | S t' =>
          call_w_init c = column (n_features X) coefs t' /\
          kw_p0 (call_kw c)
          = Z.max (Z.of_nat (count_nonzero (column (n_features X) coefs t'))) 1 /\
          (1 <= kw_p0 (call_kw c))%Z
      end.
Proof.
  intros Hin Hoff Hsol.
  pose proof (inputs_ok_valid h0 X y p Hin) as Hci.
  destruct (celer_path_total_for celer_sparse celer_dense clock h0 X y p
              Hin Hoff Hsol) as (sc & grid & _ & Hgrid & Hrun).
  set (tr := trace celer_sparse celer_dense h0 X y p sc grid (length grid))
    in Hrun.
  destruct (out_results_base celer_sparse celer_dense clock h0 X p grid tr)
    as [more Hres].
  eexists _, grid, _. split; [exact Hrun|].
  split; [exact Hgrid|].
  split; [intros a Ha; by eapply make_alphas_supplied|].
  split.
  { unfold out_calls. cbn [out_final outcome_of state_of st_calls].
    unfold tr. rewrite map_call_alpha_trace by done. apply firstn_all. }
  rewrite Hres, out_heap_coefs.
  split; [done|]. split; [done|]. split; [done|].
  split; [by apply length_trace|].
  intros t l c Ht. change (tr !! t = Some (l, c)) in Ht.
  destruct (trace_turn celer_sparse celer_dense h0 X y p sc grid t l c Ht)
    as (alpha & Ha & -> & Hc).
  split; [done|].
  split; [by eapply out_heap_buffer|].
  rewrite Hc, call_at_w_init, call_at_kw. cbn [kw_p0 make_kwargs].
  destruct t as [|t'].
  - cbn [fmap option_fmap option_map w_init_at hint_at].
    destruct (coef_init p) as [a|] eqn:Ea; [|done].
    split; [by apply Hci|]. split; [done|].
    split; [apply out_heap_old; by apply Hci | done].
  - pose proof (lookup_lt_Some _ _ _ Ht) as Hlt.
    destruct (lookup_lt_is_Some_2 tr t' ltac:(lia)) as [[l' c'] Ht'].
    fold tr. rewrite Ht'.
    cbn [fmap option_fmap option_map snd w_init_at hint_at].
    rewrite (column_coefs_of _ _ _ _ tr t' (l', c') Ht'). cbn [snd].
    split; [done|]. split; [done|]. lia.
Qed.
(** C5, as amended.  A supplied grid is returned, and processed, in
    descending order: the returned grid is the supplied values sorted
    ascending and reversed, a rearrangement of them in which every value is
    at least the values after it; equal values are kept, so the order is
    strict only when the supplied values are pairwise different.  The
    inner solver is called on the grid values in that order. *)
Theorem supplied_grid_sorted_descending
    (h0 : heap F) (X : design F) (y : list F) (p : params F) (a : list F) :
  leb_total (F := F) -> leb_trans (F := F) ->
  alphas p = Some a ->
  inputs_ok h0 X y p ->
  offset_ok p ->
  solver_contract solve ->
  exists out grid,
    run h0 X y p = Ok out /\
    out_results out !! 0 = Some (Arr1 grid) /\
    grid = rev (np_sort a) /\
    Permutation grid a /\
    descending grid /\
    (NoDup a -> strictly_descending grid) /\
    map (fun c => call_alpha (snd c)) (out_calls out) = grid.
Proof.
  intros Htot Htrans Ha Hin Hoff Hsol.
  destruct (celer_path_total celer_sparse celer_dense clock h0 X y p
              Hin Hoff Hsol) as (sc & grid & _ & Hgrid & Hrun).
  set (tr := trace celer_sparse celer_dense h0 X y p sc grid (length grid))
    in Hrun.
  destruct (out_results_base celer_sparse celer_dense clock h0 X p grid tr)
    as [more Hres].
  unfold make_alphas in Hgrid. rewrite Ha in Hgrid. injection Hgrid as <-.
  eexists _, _. split; [exact Hrun|]. rewrite Hres.
  split; [done|]. split; [done|].
  assert (Hperm : Permutation (rev (np_sort a)) a)
    by (by rewrite <- Permutation_rev, np_sort_perm).
  split; [done|].
  split; [by apply rev_np_sort_descending|].
  split.
  - intros Hnd. unfold strictly_descending.
    apply (StronglySorted_NoDup (fun a b => f_leb b a = true)).
    + by rewrite Hperm.
    + by apply rev_np_sort_descending.
  - unfold out_calls. cbn [out_final outcome_of state_of st_calls].
    unfold tr. rewrite map_call_alpha_trace by done.
    apply firstn_all.
Qed.

(** C7.  Every turn stores what its call returned, the calls being made at
    the values of the grid that [make_alphas] builds, in order: column [t]
    of the
    returned [coefs] is the first component of the solver's tuple, row [t]
    of [thetas] the second, and [dual_gaps[t]] the last entry of the third,
    the gap trajectory. *)
Theorem records_store_solver_output
    (h0 : heap F) (X : design F) (y : list F) (p : params F) :
  inputs_ok h0 X y p ->
  offset_ok p ->
  solver_contract_for p solve ->
  exists out grid coefs gaps,
    run h0 X y p = Ok out /\
    make_alphas X y p = Ok grid /\
    (forall a, alphas p = Some a ->
     grid = rev (np_sort a) /\ length grid = length a) /\
    map (fun c => call_alpha (snd c)) (out_calls out) = grid /\
    out_results out !! 0 = Some (Arr1 grid) /\
    out_results out !! 1 = Some (Arr2F (n_features X) (length grid) coefs) /\
    out_results out !! 2 = Some (Arr1 gaps) /\
    (return_thetas p = true ->
     out_results out !! 3 = Some (Arr2C (st_thetas (out_final out)))) /\
    length (out_calls out) = length grid /\
    forall t l c,
      out_calls out !! t = Some (l, c) ->
      column (n_features X) coefs t = sol_0 (solve c) /\
      st_thetas (out_final out) !! t = Some (sol_1 (solve c)) /\
      gaps !! t = last (sol_2 (solve c)).
Proof.
  intros Hin Hoff Hsol.
  destruct (celer_path_total_for celer_sparse celer_dense clock h0 X y p
              Hin Hoff Hsol) as (sc & grid & _ & Hgrid & Hrun).
  set (tr := trace celer_sparse celer_dense h0 X y p sc grid (length grid))
    in Hrun.
  destruct (out_results_base celer_sparse celer_dense clock h0 X p grid tr)
    as [more Hres].
  assert (Hthetas : return_thetas p = true ->
    out_results (outcome_of celer_sparse celer_dense clock h0 X p grid tr) !! 3
    = Some (Arr2C (st_thetas
              (state_of celer_sparse celer_dense clock h0 X p grid tr)))).
  { intros Hth. unfold outcome_of, assemble. cbn [out_results].
    rewrite Hth. by destruct (monitor p). }
  eexists _, grid, _, _. split; [exact Hrun|].
  split; [exact Hgrid|].
  split; [intros a Ha; by eapply make_alphas_supplied|].
  split.
  { unfold out_calls. cbn [out_final outcome_of state_of st_calls].
    unfold tr. rewrite map_call_alpha_trace by done. apply firstn_all. }
  split; [by rewrite Hres|]. split; [by rewrite Hres|].
  split; [by rewrite Hres|]. split; [exact Hthetas|].
  split; [by apply length_trace|].
  intros t l c Ht. change (tr !! t = Some (l, c)) in Ht.
  destruct (trace_turn celer_sparse celer_dense h0 X y p sc grid t l c Ht)
    as (alpha & Ha & -> & Hc).
  destruct (proj1 Hsol c) as (H0 & H1 & H2).
  rewrite Hc, call_at_w_init, (length_w_init_at _ _ h0 X y) in H0 by done.
  rewrite <- Hc in H0.
  assert (Hy : call_y c = y)
    by (rewrite Hc; unfold call_at, make_call; by destruct (X_store X)).
  rewrite Hy in H1. destruct Hin as (Hlen & _). rewrite Hlen in H1.
  split; [|split].
  - rewrite (column_coefs_of _ _ _ _ tr t _ Ht). cbn [snd].
    unfold col_of. by apply stored_exact.
  - cbn [out_final outcome_of state_of st_thetas].
    apply lookup_app_l_Some. rewrite list_lookup_fmap. fold tr. rewrite Ht.
    cbn [fmap option_fmap option_map snd]. unfold row_of.
    by rewrite stored_exact.
  - rewrite <- final_entry_last by done.
    apply lookup_app_l_Some. rewrite list_lookup_fmap. fold tr. by rewrite Ht.
Qed.
Lemma warnings_offending (p : params F) (tr : list (addr * solver_call F))
    (rest : list F) :
  concat (imap (warning_of celer_sparse celer_dense p) tr)
  = map (fun t => (t, convergence_message))
        (List.filter
           (fun t => f_ltb (tol p)
              (nth t (map (fun c => gap_of celer_sparse celer_dense (snd c)) tr
                      ++ rest) f_zero))
           (seq 0 (length tr))).
Proof.
  revert rest. induction tr as [|c tr IH] using rev_ind; intros rest; [done|].
  rewrite imap_app, concat_app, map_app, <- app_assoc, length_app.
  cbn [length imap concat map app].
  replace (length tr + 1) with (S (length tr)) by lia.
  rewrite seq_S, List.filter_app, map_app, <- IH. f_equal.
  cbn [List.filter]. rewrite Nat.add_0_l, Nat.add_0_r, app_nil_r.
  rewrite <- (length_map (fun c => gap_of celer_sparse celer_dense (snd c)) tr)
    at 2.
  rewrite nth_middle. unfold warning_of.
  by destruct (f_ltb _ _).
Qed.

(** C6.  Non-convergence never raises: the run returns one record per
    value of the grid that [make_alphas] builds (a column of [coefs], a row
    of [thetas], a gap, one solver call at that value),
    and it warns exactly at the grid positions whose recorded gap exceeds
    [tol], once for each in order, with the convergence message. *)
Theorem one_warning_per_unconverged_point
    (h0 : heap F) (X : design F) (y : list F) (p : params F) :
  inputs_ok h0 X y p ->
  offset_ok p ->
  solver_contract_for p solve ->
  exists out grid coefs gaps,
    run h0 X y p = Ok out /\
    make_alphas X y p = Ok grid /\
    (forall a, alphas p = Some a ->
     grid = rev (np_sort a) /\ length grid = length a) /\
    map (fun c => call_alpha (snd c)) (out_calls out) = grid /\
    out_results out !! 0 = Some (Arr1 grid) /\
    out_results out !! 1 = Some (Arr2F (n_features X) (length grid) coefs) /\
    out_results out !! 2 = Some (Arr1 gaps) /\
    length coefs = n_features X * length grid /\
    length gaps = length grid /\
    length (st_thetas (out_final out)) = length grid /\
    length (out_calls out) = length grid /\
    out_warnings out
    = map (fun t => (t, convergence_message)) (offending (tol p) gaps).
Proof.
  intros Hin Hoff Hsol.
  destruct (celer_path_total_for celer_sparse celer_dense clock h0 X y p
              Hin Hoff Hsol) as (sc & grid & _ & Hgrid & Hrun).
  set (tr := trace celer_sparse celer_dense h0 X y p sc grid (length grid))
    in Hrun.
  assert (Htr : length tr = length grid) by (by apply length_trace).
  destruct (out_results_base celer_sparse celer_dense clock h0 X p grid tr)
    as [more Hres].
  eexists _, grid, _, _. split; [exact Hrun|].
  split; [exact Hgrid|].
  split; [intros a Ha; by eapply make_alphas_supplied|].
  split.
  { unfold out_calls. cbn [out_final outcome_of state_of st_calls].
    unfold tr. rewrite map_call_alpha_trace by done. apply firstn_all. }
  split; [by rewrite Hres|]. split; [by rewrite Hres|].
  split; [by rewrite Hres|].
  split.
  { unfold coefs_of, np_zeros.
    rewrite length_app, (length_concat_cols (n_features X)), length_replicate,
      length_map by apply cols_length. nia. }
  split.
  { unfold np_zeros. rewrite length_app, length_map, length_replicate. lia. }
  split.
  { cbn [out_final outcome_of state_of st_thetas].
    rewrite length_app, length_map, length_replicate. lia. }
  split; [done|].
  unfold out_warnings, offending.
  cbn [out_final outcome_of state_of st_warnings].
  rewrite (warnings_offending p tr (np_zeros (length grid - length tr))).
  unfold np_zeros at 3.
  by rewrite length_app, length_map, length_replicate, Htr, Nat.sub_diag,
    Nat.add_0_r.
Qed.

(** C8, as amended.  The vector [X_sparse_scaling] is the elementwise
    [X_offset / X_scale] when an offset is supplied, and zeros of length
    [n_features] when none is.  A sparse design matrix has it passed to
    the inner solver on every call; a dense one is solved by
    [celer_dense], whose calls carry no scaling vector. *)
Theorem sparse_calls_carry_scaling_vector
    (h0 : heap F) (X : design F) (y : list F) (p : params F) :
  inputs_ok h0 X y p ->
  offset_ok p ->
  solver_contract solve ->
  exists out grid scaling,
    run h0 X y p = Ok out /\
    out_results out !! 0 = Some (Arr1 grid) /\
    length (out_calls out) = length grid /\
    (forall o s, X_offset p = Some o -> X_scale p = Some s ->
                 scaling = zip_with f_div o s) /\
    (X_offset p = None -> scaling = np_zeros (n_features X)) /\
    forall t l c,
      out_calls out !! t = Some (l, c) ->
      call_scaling c = if data_is_sparse X then Some scaling else None.
Proof.
  intros Hin Hoff Hsol.
  destruct (celer_path_total celer_sparse celer_dense clock h0 X y p
              Hin Hoff Hsol) as (sc & grid & Hsc & _ & Hrun).
  set (tr := trace celer_sparse celer_dense h0 X y p sc grid (length grid))
    in Hrun.
  destruct (out_results_base celer_sparse celer_dense clock h0 X p grid tr)
    as [more Hres].
  rewrite sparse_scaling_ok in Hsc by done. injection Hsc as Hsc.
  exists (outcome_of celer_sparse celer_dense clock h0 X p grid tr), grid, sc.
  split; [exact Hrun|]. split; [by rewrite Hres|].
  split; [by apply length_trace|].
  split; [intros o s Ho Hs; by rewrite Ho, Hs in Hsc|].
  split; [intros Ho; by rewrite Ho in Hsc|].
  intros t l c Ht. change (tr !! t = Some (l, c)) in Ht.
  destruct (trace_turn celer_sparse celer_dense h0 X y p sc grid t l c Ht)
    as (alpha & _ & _ & ->).
  apply call_at_scaling.
Qed.

(** C3, what the code does.  With [monitor] set and [return_thetas] not
    set, the returned tuple is the base triple: the gap and timing
    trajectories are collected and then left out. *)
Theorem monitor_without_thetas_returns_base_triple
    (h0 : heap F) (X : design F) (y : list F) (p : params F)
    (out : outcome F) :
  monitor p = true ->
  return_thetas p = false ->
  run h0 X y p = Ok out ->
  exists grid coefs gaps,
    out_results out
    = [Arr1 grid; Arr2F (n_features X) (length grid) coefs; Arr1 gaps] /\
    length (st_gaps_per_alpha (out_final out)) = length grid.
Proof.
  intros Hmon Hth Hrun. unfold celer_path in Hrun.
  apply bind_Ok in Hrun as (sc & _ & Hrun).
  apply bind_Ok in Hrun as (grid & _ & Hrun).
  cbn [alloc] in Hrun. cbv zeta in Hrun.
  apply bind_Ok in Hrun as (s & Hloop & Hrun).
  injection Hrun as <-. cbn [out_results out_final].
  unfold assemble. rewrite Hth.
  eexists grid, _, _. split; [done|].
  assert (Hgen : forall ts s0 s1,
    for_range (step celer_sparse celer_dense clock (length h0) X sc y grid p)
              ts s0 = Ok s1 ->
    length (st_gaps_per_alpha s1)
    = length (st_gaps_per_alpha s0) + length ts).
  { clear Hloop s. induction ts as [|t ts IH]; intros s0 s1 H.
    - injection H as <-. simpl. lia.
    - cbn [for_range] in H. apply bind_Ok in H as (s' & Hstep & H).
      rewrite (IH _ _ H). cbn [length].
      enough (length (st_gaps_per_alpha s')
              = S (length (st_gaps_per_alpha s0))) by lia.
      unfold step in Hstep.
      destruct (warm_start _ _ _ _ _) as [[l h1] hint].
      apply bind_Ok in Hstep as (alpha & _ & Hstep).
      apply bind_Ok in Hstep as (gap & _ & Hstep).
      apply bind_Ok in Hstep as (col & _ & Hstep).
      apply bind_Ok in Hstep as (row & _ & Hstep).
      apply bind_Ok in Hstep as (traj & Htraj & Hstep).
      injection Hstep as <-. cbn [st_gaps_per_alpha].
      rewrite Hmon in Htraj. destruct (sol_3 _); [|done].
      injection Htraj as <-. cbn [fst]. rewrite length_app. simpl. lia. }
  rewrite (Hgen _ _ _ Hloop). cbn [initial_state st_gaps_per_alpha length].
  by rewrite length_seq.
Qed.

(** C10.  With a supplied grid the argument [n_alphas] has no effect on
    the run, and every collection has one entry per supplied value: the
    grid, the columns of [coefs], the gaps, the rows of [thetas], the
    solver calls and, under [monitor], the two lists of trajectories. *)
Theorem supplied_grid_overrides_n_alphas
    (h0 : heap F) (X : design F) (y : list F) (p : params F) (a : list F) :
  alphas p = Some a ->
  inputs_ok h0 X y p ->
  offset_ok p ->
  solver_contract solve ->
  (forall n : Z, run h0 X y (with_n_alphas p n) = run h0 X y p) /\
  exists out grid coefs gaps,
    run h0 X y p = Ok out /\
    out_results out !! 0 = Some (Arr1 grid) /\
    out_results out !! 1 = Some (Arr2F (n_features X) (length a) coefs) /\
    out_results out !! 2 = Some (Arr1 gaps) /\
    length grid = length a /\
    length coefs = n_features X * length a /\
    length gaps = length a /\
    length (st_thetas (out_final out)) = length a /\
    length (out_calls out) = length a /\
    (monitor p = true ->
     length (st_gaps_per_alpha (out_final out)) = length a /\
     length (st_times_per_alpha (out_final out)) = length a).
Proof.
  intros Ha Hin Hoff Hsol. split.
  { intros n. unfold celer_path, make_alphas. cbn [alphas with_n_alphas].
    rewrite Ha. reflexivity. }
  destruct (celer_path_total celer_sparse celer_dense clock h0 X y p
              Hin Hoff Hsol) as (sc & grid & _ & Hgrid & Hrun).
  set (tr := trace celer_sparse celer_dense h0 X y p sc grid (length grid))
    in Hrun.
  assert (Htr : length tr = length grid) by (by apply length_trace).
  assert (Hlen : length grid = length a).
  { unfold make_alphas in Hgrid. rewrite Ha in Hgrid. injection Hgrid as <-.
    by rewrite length_rev, (Permutation_length (np_sort_perm a)). }
  destruct (out_results_base celer_sparse celer_dense clock h0 X p grid tr)
    as [more Hres].
  eexists _, grid, _, _. split; [exact Hrun|].
  split; [by rewrite Hres|]. split; [by rewrite Hres, Hlen|].
  split; [by rewrite Hres|]. split; [done|].
  split.
  { unfold coefs_of, np_zeros.
    rewrite length_app, (length_concat_cols (n_features X)), length_replicate,
      length_map by apply cols_length. nia. }
  split.
  { unfold np_zeros. rewrite length_app, length_map, length_replicate. lia. }
  split.
  { cbn [out_final outcome_of state_of st_thetas].
    rewrite length_app, length_map, length_replicate. lia. }
  split; [unfold out_calls; cbn [out_final outcome_of state_of st_calls]; lia|].
  intros Hmon.
  cbn [out_final outcome_of state_of st_gaps_per_alpha st_times_per_alpha].
  rewrite Hmon, !length_map. lia.
Qed.
End PathClaims.

(** ** Two runs *)

Section Determinism.
Context {F : Type} {dt : Dtype F}.
Variable celer_sparse :
  list F -> list nat -> list nat -> list F -> list F -> F -> list F ->
  kwargs F -> solution F.
Variable celer_dense :
  design F -> list F -> F -> list F -> kwargs F -> solution F.
Variable X : design F.
Variable y : list F.
Variable p : params F.

Local Abbreviation solve := (invoke celer_sparse celer_dense).

Lemma call_at_heap (h0 h0' : heap F) (sc : list F)
    (prev : option (solver_call F)) (alpha : F) :
  (forall a, coef_init p = Some a -> deref h0 a = deref h0' a) ->
  call_at celer_sparse celer_dense h0 X y p sc prev alpha
  = call_at celer_sparse celer_dense h0' X y p sc prev alpha.
Proof.
  intros Hsame. unfold call_at, w_init_at, hint_at.
  destruct prev; [done|].
  destruct (coef_init p) as [a|]; [|done]. by rewrite (Hsame a).
Qed.

Lemma trace_heap (h0 h0' : heap F) (sc grid : list F) (k : nat) :
  (forall a, coef_init p = Some a -> deref h0 a = deref h0' a) ->
  map snd (trace celer_sparse celer_dense h0 X y p sc grid k)
  = map snd (trace celer_sparse celer_dense h0' X y p sc grid k).
Proof.
  intros Hsame. induction k as [|k IH]; [done|]. simpl.
  destruct (grid !! k) as [alpha|]; [|done].
  rewrite !map_app, IH. simpl. do 2 f_equal.
  rewrite <- !fmap_last.
  change (snd <$> ?l) with (map snd l). rewrite IH.
  by apply call_at_heap.
Qed.

Lemma check_calls_calls (tr tr' : list (addr * solver_call F)) :
  map snd tr = map snd tr' ->
  check_calls celer_sparse celer_dense X p tr
  = check_calls celer_sparse celer_dense X p tr'.
Proof.
  revert tr'. induction tr as [|c tr IH]; intros [|c' tr'] H; try done.
  simpl in *. injection H as -> H. by rewrite (IH tr').
Qed.

Lemma out_results_calls (clock clock' : nat -> F) (h0 h0' : heap F)
    (grid : list F) (tr tr' : list (addr * solver_call F)) :
  map snd tr = map snd tr' ->
  out_results (outcome_of celer_sparse celer_dense clock h0 X p grid tr)
  = out_results (outcome_of celer_sparse celer_dense clock' h0' X p grid tr').
Proof.
  intros H.
  assert (Hmap : forall (B : Type) (g : solver_call F -> B),
    map (fun c => g (snd c)) tr = map (fun c => g (snd c)) tr').
  { intros B g. rewrite <- !(map_map snd g). by rewrite H. }
  assert (Hlen : length tr = length tr')
    by (by rewrite <- (length_map snd tr), H, length_map).
  unfold outcome_of, assemble, coefs_of.
  cbn [out_results state_of st_dual_gaps st_thetas st_gaps_per_alpha
       st_times_per_alpha].
  rewrite Hlen.
  rewrite (Hmap _ (col_of celer_sparse celer_dense X)),
    (Hmap _ (gap_of celer_sparse celer_dense)),
    (Hmap _ (row_of celer_sparse celer_dense X)),
    (Hmap _ (fun c => sol_2 (solve c))),
    (Hmap _ (fun c => default [] (sol_3 (solve c)))).
  reflexivity.
Qed.

(** C9.  Two runs on the same inputs with the same inner solvers return
    the same thing, tuple or exception, whatever the clock reads and
    wherever the arrays live: the runs may differ in the wall-clock
    readings and in the caller's heap, as long as [coef_init] holds the
    same values. *)
Theorem path_outputs_deterministic
    (clock clock' : nat -> F) (h0 h0' : heap F) :
  (forall a, coef_init p = Some a ->
             a < length h0 /\ a < length h0' /\ deref h0 a = deref h0' a) ->
  returned (celer_path celer_sparse celer_dense clock h0 X y p)
  = returned (celer_path celer_sparse celer_dense clock' h0' X y p).
Proof.
  intros Hsame.
  rewrite !celer_path_unfold by (intros a Ha; by apply Hsame).
  destruct (sparse_scaling X p) as [sc|]; [|done].
  destruct (make_alphas X y p) as [grid|]; [|done].
  cbn [bind]. cbv zeta.
  pose proof (trace_heap h0 h0' sc grid (length grid)
                (fun a Ha => proj2 (proj2 (Hsame a Ha)))) as Htr.
  rewrite (check_calls_calls _ _ Htr).
  destruct (check_calls _ _ _ _ _); [|done].
  cbn [bind returned]. f_equal. by apply out_results_calls.
Qed.
End Determinism.

(** ** The single-alpha adapter *)

Section AdapterLemmas.
Context {F : Type} {dt : Dtype F}.
Variable celer_sparse :
  list F -> list nat -> list nat -> list F -> list F -> F -> list F ->
  kwargs F -> solution F.
Variable celer_dense :
  design F -> list F -> F -> list F -> kwargs F -> solution F.
Variable clock : nat -> F.

(** The adapter is the sliced path run with [max_iter] left at the
    default of [celer_path], whatever [max_iter] it was given. *)
Lemma celer_is_slice_at_default_max_iter
    (h0 : heap F) (X : design F) (y : list F) (alpha : F)
    (w_init : option addr)
    (max_iter gap_freq max_epochs p0 verbose verbose_inner : Z) (tol : F)
    (prune : Z) :
  celer celer_sparse celer_dense clock h0 X y alpha w_init max_iter gap_freq
        max_epochs p0 verbose verbose_inner tol prune
  = celer_spec celer_sparse celer_dense clock h0 X y alpha w_init 20 gap_freq
               max_epochs p0 verbose verbose_inner tol prune.
Proof. reflexivity. Qed.
End AdapterLemmas.

(** ** The claims on concrete inputs *)

Module ExampleFacts.
Import QDtype Examples.
Local Open Scope Q_scope.

Lemma toy_contract : solver_contract (invoke toy_sparse toy_dense).
Proof.
  intros c. destruct c as [d i ip sc y a w kw | X y a w kw]; simpl.
  - repeat split; try done.
    + by destruct w.
    + by rewrite length_map.
    + by destruct (replicate _ _).
  - repeat split; try done.
    + by destruct w.
    + by rewrite length_map.
    + by destruct (replicate _ _).
Qed.

Lemma Q_leb_total : leb_total (F := Q).
Proof.
  intros a b. simpl. rewrite !Qle_bool_iff.
  destruct (Qlt_le_dec a b) as [H|H]; [left; by apply Qlt_le_weak | by right].
Qed.

Lemma Q_leb_trans : leb_trans (F := Q).
Proof.
  intros a b c. simpl. rewrite !Qle_bool_iff. apply Qle_trans.
Qed.

(** C2, at a failing input.  Called with [max_iter = 100], the adapter
    returns the gap trajectory of a solve with [max_iter = 20]: the
    trajectories of the toy solver have [max_iter + 1] entries, 21 from the
    adapter and 101 from the sliced path run with the same parameters. *)
Theorem celer_drops_max_iter :
  exists w theta gaps times gaps',
    celer toy_sparse toy_dense tick [] X_dense y3 (1 # 2) None
          100 10 50000 10 0 0 (1 # 10) 0
    = Ok (w, theta, gaps, times) /\
    celer_spec toy_sparse toy_dense tick [] X_dense y3 (1 # 2) None
               100 10 50000 10 0 0 (1 # 10) 0
    = Ok (w, theta, gaps', times) /\
    length gaps = 21%nat /\
    length gaps' = 101%nat.
Proof.
  eexists _, _, _, _, _.
  split; [vm_compute; reflexivity|].
  split; [vm_compute; reflexivity|].
  split; reflexivity.
Qed.

(** C5 as stated fails: a supplied grid with a repeated value is returned
    with the repetition, which is not a strictly descending sequence. *)
Lemma repeated_alpha_not_strictly_descending :
  exists out grid,
    celer_path toy_sparse toy_dense tick [] X_dense y3
               (path_params (Some [1 # 2; 1 # 2]) None false false None None)
    = Ok out /\
    out_results out !! 0%nat = Some (Arr1 grid) /\
    ~ strictly_descending grid.
Proof.
  eexists _, _. split; [vm_compute; reflexivity|].
  split; [reflexivity|].
  intros H. inversion H as [|? ? _ Hall]; subst.
  inversion Hall as [|? ? [_ Hne] _]; subst. by apply Hne.
Qed.

(** C8 as stated fails: with a dense design matrix and an offset and scale
    supplied, the call to the inner solver carries no scaling vector. *)
Lemma dense_call_carries_no_scaling :
  exists out l c,
    celer_path toy_sparse toy_dense tick [] X_dense y3
               (path_params (Some [1 # 2]) None false false
                            (Some [1; 1]) (Some [2; 2]))
    = Ok out /\
    out_calls out !! 0%nat = Some (l, c) /\
    call_scaling c <> Some (zip_with f_div [1; 1] [2; 2]).
Proof.
  eexists _, _, _. split; [vm_compute; reflexivity|].
  split; [reflexivity|]. discriminate.
Qed.
(** The scenario of the specification: the unsorted grid [[0.01, 0.5, 0.1]]
    is returned and processed as [[0.5, 0.1, 0.01]]; the toy gaps end in
    [alpha], so with [tol = 0.1] only the first grid value warns. *)
Example unsorted_grid_run :
  exists out,
    celer_path toy_sparse toy_dense tick caller_heap X_dense y3 warm_params
    = Ok out /\
    out_results out !! 0%nat = Some (Arr1 [1 # 2; 1 # 10; 1 # 100]) /\
    map (fun c => call_alpha (snd c)) (out_calls out)
    = [1 # 2; 1 # 10; 1 # 100] /\
    map (fun c => call_w_init (snd c)) (out_calls out)
    = [[0; 3]; [1; 3]; [2; 3]] /\
    map (fun c => kw_p0 (call_kw (snd c))) (out_calls out) = [10; 2; 2]%Z /\
    map fst (out_warnings out) = [0%nat] /\
    out_heap out = [[0; 3]; [1; 3; 2; 3; 3; 3]; [7; 7]; [7; 7]; [7; 7]].
Proof.
  eexists. split; [vm_compute; reflexivity|]. repeat split.
Qed.

(** The derived grid on exact rationals: [eps = 1e-3] and four values give
    [alpha_max * [1, 0.1, 0.01, 0.001]] with [alpha_max = 3 / 3]. *)
Example derived_grid_run :
  returned (celer_path toy_sparse toy_dense tick [] X_csc y3
              (path_params None None false false None None))
  = Ok [Arr1 [1; 1 # 10; 1 # 100; 1 # 1000];
        Arr2F 2 4 [1; 0; 2; 0; 3; 0; 4; 0];
        Arr1 [1; 1 # 10; 1 # 100; 1 # 1000]].
Proof. vm_compute. reflexivity. Qed.
End ExampleFacts.

(** ** The theorems at concrete inputs *)

Module Witnesses.
Import QDtype Examples ExampleFacts.

Local Abbreviation solve := (invoke toy_sparse toy_dense).
Local Abbreviation run := (celer_path toy_sparse toy_dense tick).

(** The warm-start theorem on the toy run with a caller-supplied [coef_init]. *)
Lemma warm_start_copies_previous_solution_witness :
  inputs_ok caller_heap X_dense y3 warm_params /\
  offset_ok warm_params /\
  solver_contract_for warm_params solve /\
  exists out grid coefs,
      run caller_heap X_dense y3 warm_params = Ok out /\
      make_alphas X_dense y3 warm_params = Ok grid /\
      (forall a, alphas warm_params = Some a ->
       grid = rev (np_sort a) /\ length grid = length a) /\
      map (fun c => call_alpha (snd c)) (out_calls out) = grid /\
      out_results out !! 0 = Some (Arr1 grid) /\
      out_results out !! 1 = Some (Arr2F (n_features X_dense) (length grid) coefs) /\
      deref (out_heap out) (length caller_heap) = coefs /\
      length (out_calls out) = length grid /\
      forall t l c,
        out_calls out !! t = Some (l, c) ->
        l = S (length caller_heap) + t /\
        out_heap out !! l = Some (w_init_after (solve c)) /\
        match t with
        | 0 =>
            match coef_init warm_params with
            | Some a =>
                a < length caller_heap /\
                call_w_init c = deref caller_heap a /\
                deref (out_heap out) a = deref caller_heap a /\
                kw_p0 (call_kw c)
                = Z.max (Z.of_nat (count_nonzero (deref caller_heap a))) (p0 warm_params)
            | None =>
                call_w_init c = np_zeros (n_features X_dense) /\
                kw_p0 (call_kw c) = p0 warm_params
            end
        | S t' =>
            call_w_init c = column (n_features X_dense) coefs t' /\
            kw_p0 (call_kw c)
            = Z.max (Z.of_nat (count_nonzero (column (n_features X_dense) coefs t'))) 1 /\
            (1 <= kw_p0 (call_kw c))%Z
        end.
Proof.
  assert (Hin : inputs_ok caller_heap X_dense y3 warm_params).
  { repeat split; try reflexivity; try (simpl; lia); try discriminate.
    eexists. split; reflexivity. }
  assert (Hoff : offset_ok warm_params) by exact I.
  assert (Hsol : solver_contract_for warm_params solve)
    by (apply solver_contract_for_of, toy_contract).
  split; [exact Hin|]. split; [exact Hoff|]. split; [exact Hsol|].
  exact (warm_start_copies_previous_solution toy_sparse toy_dense tick caller_heap X_dense y3
           warm_params Hin Hoff Hsol).
Defined.

(** The record theorem on the toy run. *)
Lemma records_store_solver_output_witness :
  inputs_ok caller_heap X_dense y3 warm_params /\
  offset_ok warm_params /\
  solver_contract_for warm_params solve /\
  exists out grid coefs gaps,
      run caller_heap X_dense y3 warm_params = Ok out /\
      make_alphas X_dense y3 warm_params = Ok grid /\
      (forall a, alphas warm_params = Some a ->
       grid = rev (np_sort a) /\ length grid = length a) /\
      map (fun c => call_alpha (snd c)) (out_calls out) = grid /\
      out_results out !! 0 = Some (Arr1 grid) /\
      out_results out !! 1 = Some (Arr2F (n_features X_dense) (length grid) coefs) /\
      out_results out !! 2 = Some (Arr1 gaps) /\
      (return_thetas warm_params = true ->
       out_results out !! 3 = Some (Arr2C (st_thetas (out_final out)))) /\
      length (out_calls out) = length grid /\
      forall t l c,
        out_calls out !! t = Some (l, c) ->
        column (n_features X_dense) coefs t = sol_0 (solve c) /\
        st_thetas (out_final out) !! t = Some (sol_1 (solve c)) /\
        gaps !! t = last (sol_2 (solve c)).
Proof.
  assert (Hin : inputs_ok caller_heap X_dense y3 warm_params).
  { repeat split; try reflexivity; try (simpl; lia); try discriminate.
    eexists. split; reflexivity. }
  assert (Hoff : offset_ok warm_params) by exact I.
  assert (Hsol : solver_contract_for warm_params solve)
    by (apply solver_contract_for_of, toy_contract).
  split; [exact Hin|]. split; [exact Hoff|]. split; [exact Hsol|].
  exact (records_store_solver_output toy_sparse toy_dense tick caller_heap X_dense y3
           warm_params Hin Hoff Hsol).
Defined.

(** The warning theorem on the toy run. *)
Lemma one_warning_per_unconverged_point_witness :
  inputs_ok caller_heap X_dense y3 warm_params /\
  offset_ok warm_params /\
  solver_contract_for warm_params solve /\
  exists out grid coefs gaps,
      run caller_heap X_dense y3 warm_params = Ok out /\
      make_alphas X_dense y3 warm_params = Ok grid /\
      (forall a, alphas warm_params = Some a ->
       grid = rev (np_sort a) /\ length grid = length a) /\
      map (fun c => call_alpha (snd c)) (out_calls out) = grid /\
      out_results out !! 0 = Some (Arr1 grid) /\
      out_results out !! 1 = Some (Arr2F (n_features X_dense) (length grid) coefs) /\
      out_results out !! 2 = Some (Arr1 gaps) /\
      length coefs = n_features X_dense * length grid /\
      length gaps = length grid /\
      length (st_thetas (out_final out)) = length grid /\
      length (out_calls out) = length grid /\
      out_warnings out
      = map (fun t => (t, convergence_message)) (offending (tol warm_params) gaps).
Proof.
  assert (Hin : inputs_ok caller_heap X_dense y3 warm_params).
  { repeat split; try reflexivity; try (simpl; lia); try discriminate.
    eexists. split; reflexivity. }
  assert (Hoff : offset_ok warm_params) by exact I.
  assert (Hsol : solver_contract_for warm_params solve)
    by (apply solver_contract_for_of, toy_contract).
  split; [exact Hin|]. split; [exact Hoff|]. split; [exact Hsol|].
  exact (one_warning_per_unconverged_point toy_sparse toy_dense tick caller_heap X_dense y3
           warm_params Hin Hoff Hsol).
Defined.

(** The sorting theorem on the unsorted grid of the scenario. *)
Lemma supplied_grid_sorted_descending_witness :
  leb_total (F := Q) /\
  leb_trans (F := Q) /\
  alphas warm_params = Some unsorted_grid /\
  inputs_ok caller_heap X_dense y3 warm_params /\
  offset_ok warm_params /\
  solver_contract solve /\
  exists out grid,
      run caller_heap X_dense y3 warm_params = Ok out /\
      out_results out !! 0 = Some (Arr1 grid) /\
      grid = rev (np_sort unsorted_grid) /\
      Permutation grid unsorted_grid /\
      descending grid /\
      (NoDup unsorted_grid -> strictly_descending grid) /\
      map (fun c => call_alpha (snd c)) (out_calls out) = grid.
Proof.
  assert (Hin : inputs_ok caller_heap X_dense y3 warm_params).
  { repeat split; try reflexivity; try (simpl; lia); try discriminate.
    eexists. split; reflexivity. }
  assert (Hoff : offset_ok warm_params) by exact I.
  split; [exact Q_leb_total|]. split; [exact Q_leb_trans|].
  split; [reflexivity|].
  split; [exact Hin|]. split; [exact Hoff|]. split; [exact toy_contract|].
  exact (supplied_grid_sorted_descending toy_sparse toy_dense tick caller_heap
           X_dense y3 warm_params unsorted_grid Q_leb_total Q_leb_trans
           eq_refl Hin Hoff toy_contract).
Defined.

(** The theorem on [n_alphas] on the toy run. *)
Lemma supplied_grid_overrides_n_alphas_witness :
  alphas warm_params = Some unsorted_grid /\
  inputs_ok caller_heap X_dense y3 warm_params /\
  offset_ok warm_params /\
  solver_contract solve /\
  (forall n : Z, run caller_heap X_dense y3 (with_n_alphas warm_params n) = run caller_heap X_dense y3 warm_params) /\
    exists out grid coefs gaps,
      run caller_heap X_dense y3 warm_params = Ok out /\
      out_results out !! 0 = Some (Arr1 grid) /\
      out_results out !! 1 = Some (Arr2F (n_features X_dense) (length unsorted_grid) coefs) /\
      out_results out !! 2 = Some (Arr1 gaps) /\
      length grid = length unsorted_grid /\
      length coefs = n_features X_dense * length unsorted_grid /\
      length gaps = length unsorted_grid /\
      length (st_thetas (out_final out)) = length unsorted_grid /\
      length (out_calls out) = length unsorted_grid /\
      (monitor warm_params = true ->
       length (st_gaps_per_alpha (out_final out)) = length unsorted_grid /\
       length (st_times_per_alpha (out_final out)) = length unsorted_grid).
Proof.
  assert (Hin : inputs_ok caller_heap X_dense y3 warm_params).
  { repeat split; try reflexivity; try (simpl; lia); try discriminate.
    eexists. split; reflexivity. }
  assert (Hoff : offset_ok warm_params) by exact I.
  split; [reflexivity|].
  split; [exact Hin|]. split; [exact Hoff|]. split; [exact toy_contract|].
  exact (supplied_grid_overrides_n_alphas toy_sparse toy_dense tick caller_heap
           X_dense y3 warm_params unsorted_grid eq_refl Hin Hoff toy_contract).
Defined.

(** The scaling theorem on the sparse design matrix with an offset and a scale. *)
Lemma sparse_calls_carry_scaling_vector_witness :
  inputs_ok [] X_csc y3 scaled_params /\
  offset_ok scaled_params /\
  solver_contract solve /\
  exists out grid scaling,
      run [] X_csc y3 scaled_params = Ok out /\
      out_results out !! 0 = Some (Arr1 grid) /\
      length (out_calls out) = length grid /\
      (forall o s, X_offset scaled_params = Some o -> X_scale scaled_params = Some s ->
                   scaling = zip_with f_div o s) /\
      (X_offset scaled_params = None -> scaling = np_zeros (n_features X_csc)) /\
      forall t l c,
        out_calls out !! t = Some (l, c) ->
        call_scaling c = if data_is_sparse X_csc then Some scaling else None.
Proof.
  assert (Hin : inputs_ok [] X_csc y3 scaled_params).
  { repeat split; try reflexivity; try (simpl; lia); try discriminate. }
  assert (Hoff : offset_ok scaled_params) by reflexivity.
  split; [exact Hin|]. split; [exact Hoff|]. split; [exact toy_contract|].
  exact (sparse_calls_carry_scaling_vector toy_sparse toy_dense tick []
           X_csc y3 scaled_params Hin Hoff toy_contract).
Defined.

(** The theorem on [monitor] without [return_thetas] on the toy run. *)
Lemma monitor_without_thetas_returns_base_triple_witness :
  monitor monitor_params = true /\
  return_thetas monitor_params = false /\
  exists out,
    run [] X_dense y3 monitor_params = Ok out /\
    exists grid coefs gaps,
      out_results out
      = [Arr1 grid; Arr2F (n_features X_dense) (length grid) coefs; Arr1 gaps] /\
      length (st_gaps_per_alpha (out_final out)) = length grid.
Proof.
  split; [reflexivity|]. split; [reflexivity|].
  eexists. split; [vm_compute; reflexivity|].
  apply (monitor_without_thetas_returns_base_triple toy_sparse toy_dense tick
           [] X_dense y3 monitor_params);
    [reflexivity | reflexivity | vm_compute; reflexivity].
Defined.

(** The determinism theorem on two toy runs that differ in the clock and
    in the caller's heap. *)
Lemma path_outputs_deterministic_witness :
  (forall a, coef_init warm_params = Some a ->
             a < length caller_heap /\ a < length second_heap /\
             deref caller_heap a = deref second_heap a) /\
  returned (celer_path toy_sparse toy_dense tick caller_heap X_dense y3 warm_params)
  = returned (celer_path toy_sparse toy_dense tock second_heap X_dense y3 warm_params).
Proof.
  assert (Hsame : forall a, coef_init warm_params = Some a ->
             a < length caller_heap /\ a < length second_heap /\
             deref caller_heap a = deref second_heap a).
  { intros a Ha. injection Ha as <-. repeat split; simpl; lia. }
  split; [exact Hsame|].
  exact (path_outputs_deterministic toy_sparse toy_dense X_dense y3 warm_params
           tick tock caller_heap second_heap Hsame).
Defined.
End Witnesses.

(** ** The derived grid, over the real numbers *)

Module RealGrid.
Import RDtype RealExamples.
Local Open Scope R_scope.

Lemma ln_10_pos : 0 < ln 10.
Proof. rewrite <- ln_1. apply ln_increasing; lra. Qed.

Lemma exp_le (x z : R) : x <= z -> exp x <= exp z.
Proof.
  intros [H| ->]; [left; by apply exp_increasing | right; reflexivity].
Qed.

Lemma ln_le_0 (x : R) : 0 < x <= 1 -> ln x <= 0.
Proof.
  intros [Hpos [H| ->]]; [|rewrite ln_1; lra].
  rewrite <- ln_1. left. by apply ln_increasing.
Qed.

Lemma Rpower_10_log (x : R) : 0 < x -> Rpower 10 (ln x / ln 10) = x.
Proof.
  intros Hx. unfold Rpower.
  replace (ln x / ln 10 * ln 10) with (ln x)
    by (field; pose proof ln_10_pos; lra).
  by apply exp_ln.
Qed.

(** A sample of the exponent ramp, raised to the power of ten. *)
Lemma Rpower_10_sample (x d : R) (i : nat) :
  0 < d ->
  Rpower 10 (INR i * ((ln x / ln 10 + - 0) / d) + 0) = Rpower x (INR i / d).
Proof.
  intros Hd. unfold Rpower. f_equal.
  field. pose proof ln_10_pos. split; lra.
Qed.

Lemma Rpower_antitone (x s t : R) :
  0 < x <= 1 -> s <= t -> Rpower x t <= Rpower x s.
Proof.
  intros Hx Hst. unfold Rpower. apply exp_le.
  pose proof (ln_le_0 x Hx). nra.
Qed.

Lemma fold_Rmax_ge (l : list R) (x : R) : x <= fold_left Rmax l x.
Proof.
  revert x. induction l as [|v l IH]; intros x; simpl; [lra|].
  etransitivity; [apply (Rmax_l x v) | apply IH].
Qed.

Lemma fold_Rmax_upper (l : list R) (x v : R) :
  In v (x :: l) -> v <= fold_left Rmax l x.
Proof.
  revert x. induction l as [|u l IH]; intros x Hv; simpl.
  - destruct Hv as [->|[]]. lra.
  - destruct Hv as [->|[->|Hv]].
    + etransitivity; [apply (Rmax_l v u) | apply fold_Rmax_ge].
    + etransitivity; [apply (Rmax_r x v) | apply fold_Rmax_ge].
    + apply IH. by right.
Qed.

Lemma fold_Rmax_In (l : list R) (x : R) : In (fold_left Rmax l x) (x :: l).
Proof.
  revert x. induction l as [|u l IH]; intros x; simpl; [by left|].
  destruct (IH (Rmax x u)) as [H|H].
  - rewrite <- H. unfold Rmax. destruct (Rle_dec x u); auto.
  - auto.
Qed.

Lemma sorted_by_index {A : Type} (R : A -> A -> Prop) (l : list A) :
  (forall i j a b, (i < j)%nat -> l !! i = Some a -> l !! j = Some b -> R a b) ->
  StronglySorted R l.
Proof.
  induction l as [|x l IH]; intros H; [constructor|].
  constructor.
  - apply IH. intros i j a b Hij Hi Hj. by apply (H (S i) (S j)); [lia|..].
  - apply Forall_forall. intros b Hb.
    apply list_elem_of_lookup in Hb as [j Hj].
    by apply (H 0%nat (S j)); [lia|..].
Qed.

Lemma div_nonneg (a b : R) : 0 <= a -> 0 <= b -> 0 <= a / b.
Proof.
  intros Ha [Hb| <-].
  - by apply Rle_mult_inv_pos.
  - unfold Rdiv. rewrite Rinv_0. lra.
Qed.

(** *** Finite values stay finite *)

Lemma finite_map (l : list xreal) :
  Forall is_finite l -> exists lr, l = map Fin lr.
Proof.
  induction 1 as [|x l Hx _ [lr ->]]; [by exists []|].
  destruct x as [r| | |]; try done. by exists (r :: lr).
Qed.

Lemma add_finite (a b : xreal) : is_finite a -> is_finite b -> is_finite (add a b).
Proof. by destruct a, b. Qed.

Lemma mul_finite (a b : xreal) : is_finite a -> is_finite b -> is_finite (mul a b).
Proof. by destruct a, b. Qed.

Lemma nth_finite (l : list xreal) (k : nat) :
  Forall is_finite l -> is_finite (nth k l (Fin 0)).
Proof.
  intros H. revert k. induction H as [|x l Hx _ IH]; intros [|k]; simpl; auto.
Qed.

Lemma sum_finite (l : list xreal) :
  Forall is_finite l -> is_finite (foldr add (Fin 0) l).
Proof. induction 1; simpl; [done|]. by apply add_finite. Qed.

Lemma np_dot_finite (a b : list xreal) :
  Forall is_finite a -> Forall is_finite b -> is_finite (np_dot a b).
Proof.
  intros Ha Hb. unfold np_dot. apply sum_finite.
  revert b Hb. induction Ha as [|x a Hx _ IH]; intros b Hb; [constructor|].
  destruct Hb as [|v b Hv Hb]; [constructor|]. simpl.
  constructor; [by apply mul_finite | by apply IH].
Qed.

Lemma XT_dot_finite (X : design xreal) (y xty : list xreal) :
  finite_design X -> Forall is_finite y -> XT_dot X y = Ok xty ->
  Forall is_finite xty.
Proof.
  unfold finite_design, XT_dot. intros HX Hy.
  destruct (length y =? n_samples X)%nat; [|done]. intros [= <-].
  apply List.Forall_forall. intros v Hv. apply in_map_iff in Hv as (j & <- & _).
  destruct (X_store X) as [buf|data indices indptr].
  - apply np_dot_finite; [|done]. unfold column.
    by apply Forall_take, Forall_drop.
  - unfold csc_column_dot. apply sum_finite, List.Forall_forall.
    intros v Hv. apply in_map_iff in Hv as (k & <- & _).
    apply mul_finite; by apply nth_finite.
Qed.

Lemma map_abs_Fin (l : list R) : map f_abs (map Fin l) = map Fin (map Rabs l).
Proof. by rewrite !map_map. Qed.

Lemma fold_max_Fin (l : list R) (x : R) :
  fold_left f_max (map Fin l) (Fin x) = Fin (fold_left Rmax l x).
Proof. revert x. induction l as [|v l IH]; intros x; simpl; [done|apply IH]. Qed.

Lemma np_max_Fin (l : list R) (m : xreal) :
  np_max (map Fin l) = Ok m ->
  exists mr, m = Fin mr /\ In mr l /\ forall v, In v l -> v <= mr.
Proof.
  destruct l as [|x l]; [done|]. simpl. intros [= <-].
  rewrite fold_max_Fin. eexists. split; [done|].
  split; [apply fold_Rmax_In | apply fold_Rmax_upper].
Qed.

Lemma div_INR (r : R) (n : nat) :
  (0 < n)%nat -> div (Fin r) (Fin (INR n)) = Fin (r / INR n).
Proof.
  intros Hn. unfold div.
  destruct (Req_dec_T (INR n) 0) as [H|H]; [|done].
  apply (lt_0_INR n) in Hn. lra.
Qed.

Lemma log10_pos (e : R) : 0 < e -> log10 (Fin e) = Fin (ln e / ln 10).
Proof.
  intros He. unfold log10.
  by destruct (Rlt_dec 0 e).
Qed.

(** *** The samples of [np.logspace] between finite end points *)

Lemma np_logspace_finite (s : R) (num : Z) :
  (0 <= num)%Z ->
  np_logspace (Fin 0) (Fin s) num = Ok (map Fin (ramp s (Z.to_nat num))).
Proof.
  intros Hnum. unfold np_logspace, np_linspace.
  destruct (num <? 0)%Z eqn:E; [apply Z.ltb_lt in E; lia|].
  destruct (Z.to_nat num) as [|[|k]]; cbn [bind]; [done|done|].
  f_equal. cbn [ramp]. rewrite !map_app, !map_map. cbn [map]. f_equal.
  apply map_ext. intros i.
  cbn [f_sub f_div f_of_nat R_dtype sub neg add].
  by rewrite div_INR by lia.
Qed.

Lemma ramp_length (s : R) (n : nat) : length (ramp s n) = n.
Proof.
  destruct n as [|[|k]]; [done|done|]. cbn [ramp].
  rewrite length_app, length_map, length_seq. simpl. lia.
Qed.

Lemma ramp_head (s : R) (n : nat) : (1 <= n)%nat -> head (ramp s n) = Some 1.
Proof.
  intros Hn. destruct n as [|[|k]]; [lia|..]; cbn [ramp seq map app head];
    f_equal; cbn [INR]; rewrite Rmult_0_l, Rplus_0_l; apply Rpower_O; lra.
Qed.

Lemma ramp_one (s : R) : ramp s 1 = [1].
Proof.
  cbn [ramp INR]. f_equal. rewrite Rmult_0_l, Rplus_0_l. apply Rpower_O. lra.
Qed.

Lemma ramp_samples (x : R) (k i : nat) :
  0 < x -> (i < S (S k))%nat ->
  ramp (ln x / ln 10) (S (S k)) !! i = Some (Rpower x (INR i / INR (S k))).
Proof.
  intros Hx Hi. cbn [ramp].
  assert (Hd : 0 < INR (S k)) by (apply lt_0_INR; lia).
  rewrite lookup_app, list_lookup_fmap.
  destruct (decide (i < S k)%nat) as [Hlt|Hge].
  - rewrite lookup_seq_lt by done. cbn [fmap option_fmap option_map].
    f_equal. by apply Rpower_10_sample.
  - rewrite lookup_seq_ge by lia. cbn [fmap option_fmap option_map].
    rewrite length_map, length_seq.
    assert (i = S k) as -> by lia. rewrite Nat.sub_diag. simpl lookup.
    f_equal. rewrite Rpower_10_log by done.
    replace (INR (S k) / INR (S k)) with 1 by (field; lra).
    by rewrite Rpower_1.
Qed.

Lemma map_mul_Fin (a : R) (l : list R) :
  map (mul (Fin a)) (map Fin l) = map Fin (map (Rmult a) l).
Proof. by rewrite !map_map. Qed.

Lemma still_contract_for (p : params xreal) :
  solver_contract_for p (invoke still_sparse still_dense).
Proof. split; [intros c|intros _ c]; by destruct c. Qed.

Lemma derive_inputs_ok (n : Z) :
  (0 <= n)%Z -> inputs_ok [] X_one y_one (derive_params n).
Proof. intros Hn. repeat split; simpl; try done; lia. Qed.

Lemma alpha_max_one : alpha_max X_one y_one = Ok (Fin 1).
Proof.
  unfold alpha_max, XT_dot, np_max, np_dot, column. simpl.
  unfold div. destruct (Req_dec_T 1 0) as [H|_]; [lra|].
  do 2 f_equal. rewrite Rabs_right by lra. field.
Qed.

(** The derived grid on finite inputs, in terms of real numbers. *)
Lemma make_alphas_derived (X : design xreal) (y : list xreal)
    (p : params xreal) (e : R) (grid : list xreal) :
  alphas p = None ->
  (0 <= n_alphas p)%Z ->
  (0 < n_samples X)%nat ->
  finite_design X ->
  Forall is_finite y ->
  eps p = Fin e ->
  0 < e ->
  make_alphas X y p = Ok grid ->
  exists xty m,
    XT_dot X y = Ok (map Fin xty) /\
    In m (map Rabs xty) /\
    (forall v, In v (map Rabs xty) -> v <= m) /\
    alpha_max X y = Ok (Fin (m / INR (n_samples X))) /\
    np_logspace f_zero (f_log10 (eps p)) (n_alphas p)
    = Ok (map Fin (ramp (ln e / ln 10) (Z.to_nat (n_alphas p)))) /\
    grid = map Fin (map (Rmult (m / INR (n_samples X)))
                        (ramp (ln e / ln 10) (Z.to_nat (n_alphas p)))).
Proof.
  intros Hnone Hn Hns HX Hy He Hpos Hgrid.
  unfold make_alphas in Hgrid. rewrite Hnone in Hgrid.
  apply bind_Ok in Hgrid as (amax & Hamax & Hgrid).
  apply bind_Ok in Hgrid as (ls & Hls & Hgrid). injection Hgrid as <-.
  pose proof Hamax as Hamax'. unfold alpha_max in Hamax.
  apply bind_Ok in Hamax as (xty & Hxty & Hamax).
  apply bind_Ok in Hamax as (m & Hm & Hamax). injection Hamax as <-.
  destruct (finite_map xty (XT_dot_finite X y xty HX Hy Hxty)) as [xr ->].
  rewrite map_abs_Fin in Hm.
  apply np_max_Fin in Hm as (mr & -> & Hin & Hup).
  cbn [f_log10 f_zero R_dtype] in *.
  rewrite div_INR in * by done.
  rewrite He, log10_pos in * by done.
  rewrite np_logspace_finite in Hls by done. injection Hls as <-.
  exists xr, mr. rewrite map_mul_Fin.
  repeat split; try done. by apply np_logspace_finite.
Qed.

(** C4, as amended.  Without a supplied grid, for a design matrix and a
    target without infinities or not-a-number, at least one sample and
    [eps > 0], the grid that [make_alphas] builds, that the solver is
    called on and that the run returns is
    [alpha_max * logspace(0, log10(eps), n_alphas)], with [alpha_max] the
    largest entry of [|X^T y|] divided by [n_samples]: it has [n_alphas]
    finite values, and as soon as it has one the first is [alpha_max].
    With a single value the grid is [alpha_max] alone, and
    [eps * alpha_max] is on it only if [eps = 1] or [alpha_max = 0]; from
    two values on the values are log-spaced,
    [alpha_max * eps ^ (i / (n_alphas - 1))], down to [eps * alpha_max]
    included.  The values descend when [eps <= 1]. *)
Theorem derived_grid_is_log_spaced
    (celer_sparse :
       list xreal -> list nat -> list nat -> list xreal -> list xreal ->
       xreal -> list xreal -> kwargs xreal -> solution xreal)
    (celer_dense :
       design xreal -> list xreal -> xreal -> list xreal -> kwargs xreal ->
       solution xreal)
    (clock : nat -> xreal) (h0 : heap xreal) (X : design xreal)
    (y : list xreal) (p : params xreal) (e : R) :
  alphas p = None ->
  inputs_ok h0 X y p ->
  offset_ok p ->
  solver_contract_for p (invoke celer_sparse celer_dense) ->
  (0 < n_samples X)%nat ->
  finite_design X ->
  Forall is_finite y ->
  eps p = Fin e ->
  0 < e ->
  exists out grid xty m,
    celer_path celer_sparse celer_dense clock h0 X y p = Ok out /\
    make_alphas X y p = Ok (map Fin grid) /\
    map (fun c => call_alpha (snd c)) (out_calls out) = map Fin grid /\
    out_results out !! 0%nat = Some (Arr1 (map Fin grid)) /\
    XT_dot X y = Ok (map Fin xty) /\
    In m (map Rabs xty) /\
    (forall v, In v (map Rabs xty) -> v <= m) /\
    alpha_max X y = Ok (Fin (m / INR (n_samples X))) /\
    (exists ls,
       np_logspace f_zero (f_log10 (eps p)) (n_alphas p) = Ok (map Fin ls) /\
       grid = map (Rmult (m / INR (n_samples X))) ls) /\
    length grid = Z.to_nat (n_alphas p) /\
    ((1 <= n_alphas p)%Z -> head grid = Some (m / INR (n_samples X))) /\
    (n_alphas p = 1%Z ->
     grid = [m / INR (n_samples X)] /\
     (In (e * (m / INR (n_samples X))) grid <->
      e = 1 \/ m / INR (n_samples X) = 0)) /\
    ((2 <= n_alphas p)%Z ->
     last grid = Some (e * (m / INR (n_samples X))) /\
     forall i, (i < length grid)%nat ->
       grid !! i
       = Some (m / INR (n_samples X)
               * Rpower e (INR i / INR (length grid - 1)))) /\
    (e <= 1 -> StronglySorted (fun a b => b <= a) grid).
Proof.
  intros Hnone Hin Hoff Hsol Hns HX Hy He He0.
  destruct (celer_path_total_for celer_sparse celer_dense clock h0 X y p
              Hin Hoff Hsol) as (sc & grid & _ & Hgrid & Hrun).
  set (tr := trace celer_sparse celer_dense h0 X y p sc grid (length grid))
    in Hrun.
  destruct (out_results_base celer_sparse celer_dense clock h0 X p grid tr)
    as [more Hres].
  assert (Hcalls : map (fun c => call_alpha (snd c)) tr = grid).
  { unfold tr.
    rewrite (map_call_alpha_trace celer_sparse celer_dense h0 X y p sc grid)
      by done.
    apply firstn_all. }
  pose proof Hin as (_ & _ & _ & Hn). specialize (Hn Hnone).
  destruct (make_alphas_derived X y p e grid Hnone Hn Hns HX Hy He He0 Hgrid)
    as (xty & m & Hxty & Hm_in & Hm_up & Hamax & Hls & ->).
  set (amax := m / INR (n_samples X)).
  set (ls := ramp (ln e / ln 10) (Z.to_nat (n_alphas p))).
  fold amax ls in Hgrid, Hrun, Hres, Hcalls, tr.
  assert (Hlen : length ls = Z.to_nat (n_alphas p)) by apply ramp_length.
  assert (Hpos : 0 <= amax).
  { apply div_nonneg; [|apply pos_INR].
    apply in_map_iff in Hm_in as (v & <- & _). apply Rabs_pos. }
  eexists _, (map (Rmult amax) ls), xty, m.
  split; [exact Hrun|]. split; [exact Hgrid|].
  split; [exact Hcalls|]. split; [by rewrite Hres|].
  split; [done|]. split; [done|]. split; [done|]. split; [done|].
  split; [by exists ls|].
  split; [by rewrite length_map|].
  split.
  { intros H1. unfold ls.
    pose proof (ramp_head (ln e / ln 10) (Z.to_nat (n_alphas p)) ltac:(lia))
      as Hhead.
    destruct (ramp _ _) as [|l0 l]; [done|].
    injection Hhead as ->. cbn [map head]. f_equal. apply Rmult_1_r. }
  split.
  { intros H1. unfold ls. rewrite H1. change (Z.to_nat 1) with 1%nat.
    rewrite ramp_one. cbn [map]. rewrite Rmult_1_r. split; [done|].
    split.
    - intros [H|[]].
      destruct (Req_dec_T amax 0) as [H0|H0]; [by right|left].
      fold amax in H. apply (Rmult_eq_reg_r amax); [lra|done].
    - fold amax. intros [->|H0]; left; [lra|]. rewrite H0. lra. }
  assert (Hsamples : (2 <= n_alphas p)%Z ->
    forall i, (i < length ls)%nat ->
      map (Rmult amax) ls !! i
      = Some (amax * Rpower e (INR i / INR (length ls - 1)))).
  { intros H2 i Hi. rewrite Hlen in *. unfold ls.
    destruct (Z.to_nat (n_alphas p)) as [|[|k]] eqn:En; [lia|lia|].
    rewrite list_lookup_fmap, ramp_samples by done.
    by replace (S (S k) - 1)%nat with (S k) by lia. }
  split.
  { intros H2. rewrite length_map. split; [|by apply Hsamples].
    rewrite last_lookup, length_map.
    assert (Hlt : (pred (length ls) < length ls)%nat) by lia.
    rewrite (Hsamples H2 _ Hlt). f_equal.
    replace (length ls - 1)%nat with (pred (length ls)) by lia.
    assert (0 < INR (pred (length ls))) by (apply lt_0_INR; lia).
    replace (INR (pred (length ls)) / INR (pred (length ls))) with 1
      by (field; lra).
    rewrite Rpower_1 by done. apply Rmult_comm. }
  intros He1.
  destruct (Z_lt_le_dec (n_alphas p) 2) as [Hsmall|H2].
  - destruct ls as [|l0 [|l1 ls']]; cbn [map].
    + constructor.
    + repeat constructor.
    + simpl in Hlen. lia.
  - apply sorted_by_index. intros i j a b Hij Hi Hj.
    pose proof (lookup_lt_Some _ _ _ Hj) as Hjlt. rewrite length_map in Hjlt.
    rewrite (Hsamples H2 i) in Hi by lia.
    rewrite (Hsamples H2 j) in Hj by lia.
    injection Hi as <-. injection Hj as <-.
    apply Rmult_le_compat_l; [done|].
    apply Rpower_antitone; [done|].
    assert (0 < INR (length ls - 1)) by (apply lt_0_INR; lia).
    apply Rmult_le_compat_r; [left; by apply Rinv_0_lt_compat|].
    apply le_INR. lia.
Qed.

Lemma make_alphas_single :
  make_alphas X_one y_one (derive_params 1) = Ok [Fin 1].
Proof.
  unfold make_alphas. cbn [alphas derive_params].
  rewrite alpha_max_one.
  cbn [bind eps n_alphas derive_params f_zero f_log10 R_dtype].
  rewrite log10_pos, np_logspace_finite by (lra || lia).
  change (Z.to_nat 1) with 1%nat. rewrite ramp_one.
  cbn [bind map f_mul R_dtype mul]. do 3 f_equal. lra.
Qed.

(** C4 as stated fails: a derived grid of one value is [alpha_max] alone,
    and does not reach down to [eps * alpha_max]. *)
Lemma single_value_grid_stops_at_alpha_max :
  exists out,
    celer_path still_sparse still_dense real_clock [] X_one y_one
               (derive_params 1) = Ok out /\
    n_alphas (derive_params 1) = 1%Z /\
    alpha_max X_one y_one = Ok (Fin 1) /\
    make_alphas X_one y_one (derive_params 1) = Ok [Fin 1] /\
    out_results out !! 0%nat = Some (Arr1 [Fin 1]) /\
    f_mul (eps (derive_params 1)) (Fin 1) = Fin (1 / 2) /\
    ~ In (Fin (1 / 2)) [Fin 1].
Proof.
  destruct (celer_path_total_for still_sparse still_dense real_clock []
              X_one y_one (derive_params 1) (derive_inputs_ok 1 ltac:(lia)) I
              (still_contract_for _)) as (sc & grid & _ & Hgrid & Hrun).
  destruct (out_results_base still_sparse still_dense real_clock [] X_one
              (derive_params 1) grid
              (trace still_sparse still_dense [] X_one y_one (derive_params 1)
                     sc grid (length grid))) as [more Hres].
  rewrite make_alphas_single in Hgrid. injection Hgrid as <-.
  eexists. split; [exact Hrun|]. split; [done|].
  split; [exact alpha_max_one|]. split; [exact make_alphas_single|].
  split; [by rewrite Hres|].
  split; [cbn; f_equal; lra|].
  intros [H|[]]. injection H as H. lra.
Qed.

(** Without the condition [eps > 0] the first grid value is not
    [alpha_max]: at [eps = 0] the exponents run from [0] to minus infinity
    in steps of minus infinity, so the first one is [0 * -inf]. *)
Example zero_eps_grid_starts_with_nan :
  alpha_max X_one y_one = Ok (Fin 1) /\
  make_alphas X_one y_one zero_eps_params = Ok [NaN; Fin 0; Fin 0].
Proof.
  split; [exact alpha_max_one|].
  unfold make_alphas. cbn [alphas zero_eps_params].
  rewrite alpha_max_one.
  cbn [bind eps n_alphas zero_eps_params f_zero f_log10 R_dtype].
  unfold log10. destruct (Rlt_dec 0 0) as [H|_]; [lra|].
  unfold np_logspace, np_linspace. change (Z.to_nat 3) with 3%nat.
  cbn [Z.ltb Z.compare bind seq map app f_sub f_div f_mul f_add f_of_nat
       f_pow10 R_dtype sub neg add].
  assert (Hstep : div MInf (Fin (INR 2)) = MInf).
  { unfold div. destruct (Rlt_dec (INR 2) 0) as [H|_]; [|done].
    pose proof (pos_INR 2). lra. }
  assert (H0 : mul (Fin (INR 0)) MInf = NaN).
  { unfold mul, inf_times. cbn [INR].
    destruct (Rlt_dec 0 0) as [H|_]; [lra|done]. }
  assert (H1 : mul (Fin (INR 1)) MInf = MInf).
  { unfold mul, inf_times. cbn [INR].
    destruct (Rlt_dec 0 1) as [_|H]; [done|lra]. }
  rewrite Hstep, H0, H1. cbn [add pow10 mul]. by rewrite Rmult_0_r.
Qed.

(** The grid theorem on a one-by-one design matrix and three grid values. *)
Lemma derived_grid_is_log_spaced_witness :
  alphas (derive_params 3) = None /\
  inputs_ok [] X_one y_one (derive_params 3) /\
  offset_ok (derive_params 3) /\
  solver_contract_for (derive_params 3) (invoke still_sparse still_dense) /\
  (0 < n_samples X_one)%nat /\
  finite_design X_one /\
  Forall is_finite y_one /\
  eps (derive_params 3) = Fin (1 / 2) /\
  0 < (1 / 2) /\
  exists out grid xty m,
      celer_path still_sparse still_dense real_clock [] X_one y_one (derive_params 3) = Ok out /\
      make_alphas X_one y_one (derive_params 3) = Ok (map Fin grid) /\
      map (fun c => call_alpha (snd c)) (out_calls out) = map Fin grid /\
      out_results out !! 0%nat = Some (Arr1 (map Fin grid)) /\
      XT_dot X_one y_one = Ok (map Fin xty) /\
      In m (map Rabs xty) /\
      (forall v, In v (map Rabs xty) -> v <= m) /\
      alpha_max X_one y_one = Ok (Fin (m / INR (n_samples X_one))) /\
      (exists ls,
         np_logspace f_zero (f_log10 (eps (derive_params 3))) (n_alphas (derive_params 3)) = Ok (map Fin ls) /\
         grid = map (Rmult (m / INR (n_samples X_one))) ls) /\
      length grid = Z.to_nat (n_alphas (derive_params 3)) /\
      ((1 <= n_alphas (derive_params 3))%Z -> head grid = Some (m / INR (n_samples X_one))) /\
      (n_alphas (derive_params 3) = 1%Z ->
       grid = [m / INR (n_samples X_one)] /\
       (In ((1 / 2) * (m / INR (n_samples X_one))) grid <->
        (1 / 2) = 1 \/ m / INR (n_samples X_one) = 0)) /\
      ((2 <= n_alphas (derive_params 3))%Z ->
       last grid = Some ((1 / 2) * (m / INR (n_samples X_one))) /\
       forall i, (i < length grid)%nat ->
         grid !! i
         = Some (m / INR (n_samples X_one)
                 * Rpower (1 / 2) (INR i / INR (length grid - 1)))) /\
      ((1 / 2) <= 1 -> StronglySorted (fun a b => b <= a) grid).
Proof.
  split; [reflexivity|].
  split; [apply derive_inputs_ok; lia|].
  split; [exact I|].
  split; [apply still_contract_for|].
  split; [simpl; lia|].
  split; [repeat constructor|].
  split; [repeat constructor|].
  split; [reflexivity|].
  split; [lra|].
  apply (derived_grid_is_log_spaced still_sparse still_dense real_clock []
           X_one y_one (derive_params 3) (1 / 2) eq_refl);
    [apply derive_inputs_ok; lia | exact I | apply still_contract_for
    | simpl; lia | repeat constructor | repeat constructor | reflexivity
    | lra].
Defined.
End RealGrid.

(** * Further properties of the path controller *)

Section FirstTurn.
Context {F : Type} {dt : Dtype F}.
Variable celer_sparse :
  list F -> list nat -> list nat -> list F -> list F -> F -> list F ->
  kwargs F -> solution F.
Variable celer_dense :
  design F -> list F -> F -> list F -> kwargs F -> solution F.
Variable clock : nat -> F.

Local Abbreviation solve := (invoke celer_sparse celer_dense).
Local Abbreviation run := (celer_path celer_sparse celer_dense clock).

Lemma trace_head (h0 : heap F) (X : design F) (y : list F) (p : params F)
    (sc grid : list F) (alpha0 : F) :
  grid !! 0 = Some alpha0 ->
  exists rest,
    trace celer_sparse celer_dense h0 X y p sc grid (length grid)
    = (S (length h0) + 0,
       call_at celer_sparse celer_dense h0 X y p sc None alpha0) :: rest.
Proof.
  intros H0. pose proof (lookup_lt_Some _ _ _ H0) as Hlt.
  destruct (trace_prefix celer_sparse celer_dense h0 X y p sc grid 1
              (length grid) ltac:(lia)) as [rest ->].
  rewrite (trace_S _ _ _ _ _ _ _ _ 0 alpha0 H0). simpl. by eexists.
Qed.

Lemma rev_np_sort_nonempty (a : list F) :
  a <> [] -> exists alpha0, rev (np_sort a) !! 0 = Some alpha0.
Proof.
  intros Ha. apply lookup_lt_is_Some_2.
  rewrite length_rev, (Permutation_length (np_sort_perm a)).
  destruct a; [done | simpl; lia].
Qed.

(** The exception of the first turn is the exception of the run. *)
Lemma first_turn_raises (h0 : heap F) (X : design F) (y : list F)
    (p : params F) (a : list F) (e : exn) :
  (forall l, coef_init p = Some l -> l < length h0) ->
  offset_ok p ->
  alphas p = Some a ->
  a <> [] ->
  (forall c, check_call celer_sparse celer_dense X p c = Raise e) ->
  run h0 X y p = Raise e.
Proof.
  intros Hci Hoff Ha Hne Hraise.
  rewrite celer_path_unfold by done.
  rewrite sparse_scaling_ok by done. unfold make_alphas. rewrite Ha.
  cbn [bind]. cbv zeta.
  destruct (rev_np_sort_nonempty a Hne) as [alpha0 H0].
  match goal with
  | |- context [trace _ _ _ _ _ _ ?sc _ _] =>
      destruct (trace_head h0 X y p sc _ alpha0 H0) as [rest ->]
  end.
  cbn [check_calls snd]. by rewrite Hraise.
Qed.


(** An inner solver that returns an empty gap trajectory makes [sol[2][-1]]
    fail: the run over a non-empty supplied grid raises [IndexError]. *)
Theorem empty_gap_trajectory_raises_IndexError
    (h0 : heap F) (X : design F) (y : list F) (p : params F) (a : list F) :
  (forall l, coef_init p = Some l -> l < length h0) ->
  offset_ok p ->
  alphas p = Some a ->
  a <> [] ->
  (forall c, sol_2 (solve c) = []) ->
  run h0 X y p = Raise IndexError.
Proof.
  intros Hci Hoff Ha Hne Hgaps.
  apply (first_turn_raises h0 X y p a); try done.
  intros c. unfold check_call. by rewrite Hgaps.
Qed.

(** An inner solver whose coefficient vector has neither [n_features]
    entries nor a single one cannot be stored in [coefs[:, t]]: the run over
    a non-empty supplied grid raises [ValueError]. *)
Theorem misshapen_coefficients_raise_ValueError
    (h0 : heap F) (X : design F) (y : list F) (p : params F) (a : list F) :
  (forall l, coef_init p = Some l -> l < length h0) ->
  offset_ok p ->
  alphas p = Some a ->
  a <> [] ->
  (forall c, sol_2 (solve c) <> [] /\
             length (sol_0 (solve c)) <> n_features X /\
             length (sol_0 (solve c)) <> 1) ->
  run h0 X y p = Raise ValueError.
Proof.
  intros Hci Hoff Ha Hne Hshape.
  apply (first_turn_raises h0 X y p a); try done.
  intros c. destruct (Hshape c) as (Hgap & Hnf & H1).
  unfold check_call. rewrite np_last_nonempty by done. cbn [bind].
  unfold np_setitem.
  apply Nat.eqb_neq in Hnf, H1. by rewrite Hnf, H1.
Qed.

(** With [monitor] set, an inner solver that returns three components
    makes [sol[3]] fail: the run over a non-empty supplied grid raises
    [IndexError], although the solver respects the rest of the contract. *)
Theorem monitor_needs_timing_trajectory
    (h0 : heap F) (X : design F) (y : list F) (p : params F) (a : list F) :
  inputs_ok h0 X y p ->
  offset_ok p ->
  alphas p = Some a ->
  a <> [] ->
  monitor p = true ->
  solver_contract3 solve ->
  (forall c, sol_3 (solve c) = None) ->
  run h0 X y p = Raise IndexError.
Proof.
  intros Hin Hoff Ha Hne Hmon Hsol Hnone.
  pose proof (inputs_ok_valid h0 X y p Hin) as Hci.
  rewrite celer_path_unfold by done.
  rewrite sparse_scaling_ok by done. unfold make_alphas. rewrite Ha.
  cbn [bind]. cbv zeta.
  destruct (rev_np_sort_nonempty a Hne) as [alpha0 H0].
  match goal with
  | |- context [trace _ _ _ _ _ _ ?sc _ _] =>
      destruct (trace_head h0 X y p sc _ alpha0 H0) as [rest ->]
  end.
  cbn [check_calls snd]. set (c := call_at _ _ _ _ _ _ _ _ _).
  destruct (Hsol c) as (Hw & Hy & Hgap).
  unfold c in Hw at 2. rewrite call_at_w_init in Hw.
  rewrite (length_w_init_at _ _ h0 X y) in Hw by done.
  assert (Hcy : call_y c = y)
    by (unfold c, call_at, make_call; by destruct (X_store X)).
  rewrite Hcy in Hy. destruct Hin as (Hlen & _). rewrite Hlen in Hy.
  unfold check_call.
  rewrite np_last_nonempty, !np_setitem_exact by done. cbn [bind].
  by rewrite Hmon, Hnone.
Qed.

(** An empty supplied grid: the run calls no solver, warns of nothing and
    returns empty collections; only the (empty) [coefs] buffer is
    allocated. *)
Theorem empty_grid_runs_no_solver
    (h0 : heap F) (X : design F) (y : list F) (p : params F) :
  offset_ok p ->
  alphas p = Some [] ->
  exists out,
    run h0 X y p = Ok out /\
    out_calls out = [] /\
    out_warnings out = [] /\
    out_heap out = h0 ++ [[]] /\
    out_results out
    = [Arr1 []; Arr2F (n_features X) 0 []; Arr1 []]
      ++ (if return_thetas p
          then Arr2C [] :: (if monitor p then [PyList []; PyList []] else [])
          else []).
Proof.
  intros Hoff Ha. unfold celer_path.
  rewrite sparse_scaling_ok by done. unfold make_alphas. rewrite Ha.
  cbn [bind rev np_sort foldr length alloc seq for_range]. cbv zeta.
  rewrite Nat.mul_0_r. eexists. split; [reflexivity|].
  unfold out_calls, out_warnings, out_heap, assemble.
  cbn [out_final out_results initial_state st_calls st_warnings st_heap
       st_thetas st_dual_gaps st_gaps_per_alpha st_times_per_alpha].
  rewrite deref_alloc. repeat split.
  destruct (return_thetas p); [destruct (monitor p)|]; reflexivity.
Qed.
(** When the grid is to be derived, a target whose length is not
    [n_samples] makes [X.T.dot(y)] fail, and a negative [n_alphas] makes
    [np.logspace] fail: the run raises [ValueError] before any solve. *)
Theorem derived_grid_rejects_bad_arguments
    (h0 : heap F) (X : design F) (y : list F) (p : params F) :
  alphas p = None ->
  offset_ok p ->
  length y <> n_samples X \/ (0 < n_features X /\ (n_alphas p < 0)%Z) ->
  run h0 X y p = Raise ValueError.
Proof.
  intros Hnone Hoff Hbad. unfold celer_path.
  rewrite sparse_scaling_ok by done. cbn [bind].
  unfold make_alphas, alpha_max, XT_dot. rewrite Hnone.
  destruct (length y =? n_samples X) eqn:Hy.
  - destruct Hbad as [Hbad|[Hnf Hneg]];
      [by apply Nat.eqb_eq in Hy|].
    cbn [bind]. destruct (n_features X) as [|nf]; [lia|].
    cbn [seq map np_max bind]. unfold np_logspace, np_linspace.
    apply Z.ltb_lt in Hneg. by rewrite Hneg.
  - reflexivity.
Qed.
End FirstTurn.

(** ** Order of the supplied grid *)

Section GridOrder.
Context {F : Type} {dt : Dtype F}.
Variable celer_sparse :
  list F -> list nat -> list nat -> list F -> list F -> F -> list F ->
  kwargs F -> solution F.
Variable celer_dense :
  design F -> list F -> F -> list F -> kwargs F -> solution F.
Variable clock : nat -> F.

Local Abbreviation solve := (invoke celer_sparse celer_dense).
Local Abbreviation run := (celer_path celer_sparse celer_dense clock).

Lemma sorted_perm_unique (l l' : list F) :
  leb_antisym (F := F) ->
  StronglySorted (fun a b => f_leb a b = true) l ->
  StronglySorted (fun a b => f_leb a b = true) l' ->
  Permutation l l' ->
  l = l'.
Proof.
  intros Hanti Hl. revert l'.
  induction Hl as [|x l Hs IH Hx]; intros l' Hl' Hperm.
  - by apply Permutation_nil in Hperm.
  - destruct l' as [|x' l'];
      [by apply Permutation_sym, Permutation_nil in Hperm|].
    apply StronglySorted_inv in Hl' as [Hs' Hx'].
    assert (x = x') as <-.
    { assert (Hin : In x (x' :: l'))
        by (eapply Permutation_in; [exact Hperm | by left]).
      assert (Hin' : In x' (x :: l))
        by (eapply Permutation_in;
            [apply Permutation_sym; exact Hperm | by left]).
      destruct Hin as [<-|Hin]; [done|].
      destruct Hin' as [Heq|Hin']; [done|].
      apply Hanti.
      - rewrite List.Forall_forall in Hx. by apply Hx.
      - rewrite List.Forall_forall in Hx'. by apply Hx'. }
    f_equal. apply IH; [done|]. by eapply Permutation_cons_inv.
Qed.

Lemma np_sort_perm_eq (a a' : list F) :
  leb_total (F := F) -> leb_trans (F := F) -> leb_antisym (F := F) ->
  Permutation a a' -> np_sort a = np_sort a'.
Proof.
  intros Htot Htrans Hanti Hperm.
  apply sorted_perm_unique; [done | by apply np_sort_sorted..|].
  by rewrite !np_sort_perm.
Qed.

Lemma rev_np_sort_descending_id (g : list F) :
  leb_total (F := F) -> leb_trans (F := F) -> leb_antisym (F := F) ->
  descending g -> rev (np_sort g) = g.
Proof.
  intros Htot Htrans Hanti Hg.
  rewrite (sorted_perm_unique (np_sort g) (rev g)), rev_involutive; try done.
  - by apply np_sort_sorted.
  - rewrite <- (rev_involutive g) in Hg.
    apply (StronglySorted_rev (fun a b => f_leb b a = true)) in Hg.
    by rewrite rev_involutive in Hg.
  - by rewrite np_sort_perm, <- Permutation_rev.
Qed.

(** A supplied grid that is already in descending order is returned, and
    processed, as it was passed, when the comparison of the scalars is a
    total order. *)
Theorem descending_grid_is_kept
    (h0 : heap F) (X : design F) (y : list F) (p : params F) (g : list F) :
  leb_total (F := F) -> leb_trans (F := F) -> leb_antisym (F := F) ->
  alphas p = Some g ->
  descending g ->
  inputs_ok h0 X y p ->
  offset_ok p ->
  solver_contract solve ->
  exists out,
    run h0 X y p = Ok out /\
    out_results out !! 0 = Some (Arr1 g) /\
    map (fun c => call_alpha (snd c)) (out_calls out) = g.
Proof.
  intros Htot Htrans Hanti Hg Hdesc Hin Hoff Hsol.
  destruct (celer_path_total celer_sparse celer_dense clock h0 X y p
              Hin Hoff Hsol) as (sc & grid & _ & Hgrid & Hrun).
  unfold make_alphas in Hgrid. rewrite Hg in Hgrid.
  rewrite rev_np_sort_descending_id in Hgrid by done. injection Hgrid as <-.
  destruct (out_results_base celer_sparse celer_dense clock h0 X p g
              (trace celer_sparse celer_dense h0 X y p sc g (length g)))
    as [more Hres].
  eexists. split; [exact Hrun|]. split; [by rewrite Hres|].
  unfold out_calls. cbn [out_final outcome_of state_of st_calls].
  rewrite map_call_alpha_trace by done. apply firstn_all.
Qed.

(** The order in which the caller lists the grid values is irrelevant: two
    supplied grids with the same values, in any order, give the same run
    (the same tuple or exception, the same solver calls, the same heap), when
    the comparison of the scalars is a total order. *)
Theorem grid_order_is_irrelevant
    (h0 : heap F) (X : design F) (y : list F) (p : params F)
    (a a' : list F) :
  leb_total (F := F) -> leb_trans (F := F) -> leb_antisym (F := F) ->
  Permutation a a' ->
  run h0 X y (with_alphas p (Some a)) = run h0 X y (with_alphas p (Some a')).
Proof.
  intros Htot Htrans Hanti Hperm.
  unfold celer_path, make_alphas. cbn [alphas with_alphas].
  rewrite (np_sort_perm_eq a a') by done. reflexivity.
Qed.
End GridOrder.

(** ** What the calls are made of *)

Section CallFacts.
Context {F : Type} {dt : Dtype F}.
Variable celer_sparse :
  list F -> list nat -> list nat -> list F -> list F -> F -> list F ->
  kwargs F -> solution F.
Variable celer_dense :
  design F -> list F -> F -> list F -> kwargs F -> solution F.
Variable clock : nat -> F.

Local Abbreviation solve := (invoke celer_sparse celer_dense).
Local Abbreviation run := (celer_path celer_sparse celer_dense clock).

Lemma for_range_ext (body body' : nat -> pstate F -> res (pstate F))
    (ts : list nat) (s : pstate F) :
  (forall t s', body t s' = body' t s') ->
  for_range body ts s = for_range body' ts s.
Proof.
  intros Hext. revert s. induction ts as [|t ts IH]; intros s; [done|].
  simpl. rewrite Hext. destruct (body' t s); simpl; [apply IH | done].
Qed.

Lemma count_nonzero_le (w : list F) : count_nonzero w <= length w.
Proof. unfold count_nonzero. apply List.filter_length_le. Qed.

(** A dense design matrix is solved without the scaling vector, so the
    offset and the scale have no effect on the run: any two settings that
    numpy can divide give the same result. *)
Theorem dense_run_ignores_offset
    (h0 : heap F) (X : design F) (y : list F) (p : params F)
    (o s o' s' : option (list F)) :
  data_is_sparse X = false ->
  offset_ok (with_offset p o s) ->
  offset_ok (with_offset p o' s') ->
  run h0 X y (with_offset p o s) = run h0 X y (with_offset p o' s').
Proof.
  intros Hdense Hoff Hoff'. unfold celer_path.
  rewrite !sparse_scaling_ok by done.
  cbn [bind X_offset X_scale with_offset].
  unfold make_alphas. cbn [alphas eps n_alphas with_offset].
  destruct (match alphas p with
            | Some a => Ok (rev (np_sort a))
            | None => _
            end) as [grid|]; [|done].
  cbn [bind alloc]. cbv zeta.
  rewrite (for_range_ext
             (step celer_sparse celer_dense clock (length h0) X _ y grid
                   (with_offset p o s))
             (step celer_sparse celer_dense clock (length h0) X
                   (match o', s' with
                    | Some o1, Some s1 => zip_with f_div o1 s1
                    | _, _ => np_zeros (n_features X)
                    end) y grid (with_offset p o' s'))).
  - reflexivity.
  - intros t st. unfold step, make_call, data_is_sparse in *.
    destruct (X_store X); [reflexivity | discriminate].
Qed.

(** Every call of the inner solver gets the caller's target, budgets,
    verbosity, tolerance and pruning flag unchanged, with acceleration
    always on; a sparse design matrix goes to [celer_sparse] as its three
    arrays, a dense one to [celer_dense] as it is. *)
Theorem calls_forward_the_arguments
    (h0 : heap F) (X : design F) (y : list F) (p : params F)
    (out : outcome F) :
  (forall a, coef_init p = Some a -> a < length h0) ->
  run h0 X y p = Ok out ->
  forall t l c,
    out_calls out !! t = Some (l, c) ->
    call_y c = y /\
    kw_max_iter (call_kw c) = max_iter p /\
    kw_gap_freq (call_kw c) = gap_freq p /\
    kw_max_epochs (call_kw c) = max_epochs p /\
    kw_verbose (call_kw c) = verbose p /\
    kw_verbose_inner (call_kw c) = verbose_inner p /\
    kw_use_accel (call_kw c) = 1%Z /\
    kw_tol (call_kw c) = tol p /\
    kw_prune (call_kw c) = prune p /\
    match X_store X with
    | Csc data indices indptr =>
        exists sc alpha w kw, c = Call_sparse data indices indptr sc y alpha w kw
    | Dense _ => exists alpha w kw, c = Call_dense X y alpha w kw
    end.
Proof.
  intros Hci Hrun t l c Ht.
  destruct (celer_path_Ok celer_sparse celer_dense clock h0 X y p out Hci Hrun)
    as (sc & grid & _ & _ & ->).
  destruct (trace_turn celer_sparse celer_dense h0 X y p sc grid t l c Ht)
    as (alpha & _ & _ & ->).
  unfold call_at, make_call.
  destruct (X_store X); repeat split; eauto.
Qed.

(** The caller's arrays are never written: after the run every array of the
    caller's heap holds what it held, and the heap has grown by the [coefs]
    buffer and one [w_init] buffer per grid value. *)
Theorem caller_heap_is_preserved
    (h0 : heap F) (X : design F) (y : list F) (p : params F)
    (out : outcome F) :
  (forall a, coef_init p = Some a -> a < length h0) ->
  run h0 X y p = Ok out ->
  take (length h0) (out_heap out) = h0 /\
  length (out_heap out) = length h0 + 1 + length (out_calls out).
Proof.
  intros Hci Hrun.
  destruct (celer_path_Ok celer_sparse celer_dense clock h0 X y p out Hci Hrun)
    as (sc & grid & _ & _ & ->).
  unfold out_heap, out_calls.
  cbn [out_final outcome_of state_of st_heap st_calls]. split.
  - by rewrite take_app_length.
  - rewrite length_app. cbn [length]. rewrite length_map. lia.
Qed.

(** From the second grid value on, the working-set size handed to the
    inner solver lies between 1 and [n_features] (or is 1 when there are no
    features): it is never the caller's [p0]. *)
Theorem later_hints_are_bounded
    (h0 : heap F) (X : design F) (y : list F) (p : params F)
    (out : outcome F) :
  (forall a, coef_init p = Some a -> a < length h0) ->
  run h0 X y p = Ok out ->
  forall t l c,
    out_calls out !! S t = Some (l, c) ->
    (1 <= kw_p0 (call_kw c) <= Z.max 1 (Z.of_nat (n_features X)))%Z.
Proof.
  intros Hci Hrun t l c Ht.
  destruct (celer_path_Ok celer_sparse celer_dense clock h0 X y p out Hci Hrun)
    as (sc & grid & _ & _ & ->).
  change (trace celer_sparse celer_dense h0 X y p sc grid (length grid) !! S t
          = Some (l, c)) in Ht.
  destruct (trace_turn celer_sparse celer_dense h0 X y p sc grid (S t) l c Ht)
    as (alpha & _ & _ & ->).
  pose proof (lookup_lt_Some _ _ _ Ht) as Hlt.
  destruct (lookup_lt_is_Some_2
              (trace celer_sparse celer_dense h0 X y p sc grid (length grid))
              t ltac:(lia)) as [[l' c'] Ht'].
  rewrite Ht', call_at_kw.
  cbn [fmap option_fmap option_map snd kw_p0 make_kwargs hint_at].
  pose proof (count_nonzero_le (col_of celer_sparse celer_dense X c')) as Hle.
  unfold col_of in Hle at 2. rewrite length_stored in Hle. lia.
Qed.
End CallFacts.

(** ** What the records are made of *)

Section RecordFacts.
Context {F : Type} {dt : Dtype F}.
Variable celer_sparse :
  list F -> list nat -> list nat -> list F -> list F -> F -> list F ->
  kwargs F -> solution F.
Variable celer_dense :
  design F -> list F -> F -> list F -> kwargs F -> solution F.
Variable clock : nat -> F.

Local Abbreviation solve := (invoke celer_sparse celer_dense).
Local Abbreviation run := (celer_path celer_sparse celer_dense clock).

Lemma call_shape (h0 : heap F) (X : design F) (y : list F) (p : params F)
    (sc grid : list F) (t : nat) (l : addr) (c : solver_call F) :
  inputs_ok h0 X y p ->
  trace celer_sparse celer_dense h0 X y p sc grid (length grid) !! t
  = Some (l, c) ->
  length (call_w_init c) = n_features X /\ call_y c = y.
Proof.
  intros Hin Ht.
  destruct (trace_turn celer_sparse celer_dense h0 X y p sc grid t l c Ht)
    as (alpha & _ & _ & ->).
  rewrite call_at_w_init, (length_w_init_at _ _ h0 X y) by done.
  split; [done|]. unfold call_at, make_call. by destruct (X_store X).
Qed.

(** Each solve starts from the solution of the solve before it: the initial
    vector of the call at grid position [t + 1] is the coefficient vector
    the call at position [t] returned, and its working-set size is the
    number of nonzero entries of that vector, or 1 if there is none. *)
Theorem warm_start_chains_the_solves
    (h0 : heap F) (X : design F) (y : list F) (p : params F) :
  inputs_ok h0 X y p ->
  offset_ok p ->
  solver_contract solve ->
  exists out,
    run h0 X y p = Ok out /\
    forall t l c l' c',
      out_calls out !! t = Some (l, c) ->
      out_calls out !! S t = Some (l', c') ->
      call_w_init c' = sol_0 (solve c) /\
      kw_p0 (call_kw c')
      = Z.max (Z.of_nat (count_nonzero (sol_0 (solve c)))) 1.
Proof.
  intros Hin Hoff Hsol.
  destruct (celer_path_total celer_sparse celer_dense clock h0 X y p
              Hin Hoff Hsol) as (sc & grid & _ & _ & Hrun).
  eexists. split; [exact Hrun|].
  intros t l c l' c' Ht Ht'.
  change (trace celer_sparse celer_dense h0 X y p sc grid (length grid) !! t
          = Some (l, c)) in Ht.
  change (trace celer_sparse celer_dense h0 X y p sc grid (length grid) !! S t
          = Some (l', c')) in Ht'.
  destruct (call_shape h0 X y p sc grid t l c Hin Ht) as [Hw _].
  destruct (trace_turn celer_sparse celer_dense h0 X y p sc grid (S t) l' c' Ht')
    as (alpha & _ & _ & ->).
  rewrite Ht, call_at_w_init, call_at_kw.
  cbn [fmap option_fmap option_map snd kw_p0 make_kwargs hint_at w_init_at].
  unfold col_of. destruct (Hsol c) as (H0 & _).
  by rewrite stored_exact by congruence.
Qed.

(** With dual points and monitoring both asked for, the tuple has six
    components, and the last two hold, for each grid value, the gap and
    timing trajectories as the inner solver returned them; the recorded gap
    of a grid value is the last entry of its gap trajectory. *)
Theorem monitored_trajectories_match_the_gaps
    (h0 : heap F) (X : design F) (y : list F) (p : params F) :
  inputs_ok h0 X y p ->
  offset_ok p ->
  solver_contract solve ->
  return_thetas p = true ->
  monitor p = true ->
  exists out grid coefs gaps thetas all_gaps all_times,
    run h0 X y p = Ok out /\
    out_results out
    = [Arr1 grid; Arr2F (n_features X) (length grid) coefs; Arr1 gaps;
       Arr2C thetas; PyList all_gaps; PyList all_times] /\
    length all_gaps = length grid /\
    length all_times = length grid /\
    forall t l c,
      out_calls out !! t = Some (l, c) ->
      all_gaps !! t = Some (sol_2 (solve c)) /\
      (exists times,
         all_times !! t = Some times /\ sol_3 (solve c) = Some times) /\
      gaps !! t = last (sol_2 (solve c)).
Proof.
  intros Hin Hoff Hsol Hth Hmon.
  destruct (celer_path_total celer_sparse celer_dense clock h0 X y p
              Hin Hoff Hsol) as (sc & grid & _ & _ & Hrun).
  set (tr := trace celer_sparse celer_dense h0 X y p sc grid (length grid))
    in Hrun.
  assert (Htr : length tr = length grid) by (by apply length_trace).
  eexists _, grid, _, _, _, _, _. split; [exact Hrun|].
  split.
  { unfold outcome_of, assemble. cbn [out_results]. rewrite Hth, Hmon.
    cbn [state_of st_gaps_per_alpha st_times_per_alpha]. rewrite Hmon.
    reflexivity. }
  split; [by rewrite length_map|]. split; [by rewrite length_map|].
  intros t l c Ht. change (tr !! t = Some (l, c)) in Ht.
  destruct (Hsol c) as (_ & _ & Hgap & Htimes).
  rewrite !list_lookup_fmap, Ht.
  cbn [fmap option_fmap option_map snd].
  split; [done|]. split.
  - destruct (sol_3 (solve c)) as [times|]; [by exists times | congruence].
  - cbn [state_of st_dual_gaps].
    rewrite <- final_entry_last by done.
    apply lookup_app_l_Some. by rewrite list_lookup_fmap, Ht.
Qed.

Lemma check_calls_ok3 (h0 : heap F) (X : design F) (y : list F)
    (p : params F) (sc grid : list F) (k : nat) :
  inputs_ok h0 X y p ->
  solver_contract3 solve ->
  monitor p = false ->
  check_calls celer_sparse celer_dense X p
    (trace celer_sparse celer_dense h0 X y p sc grid k) = Ok tt.
Proof.
  intros Hin Hsol Hmon. induction k as [|k IH]; [done|]. simpl.
  destruct (grid !! k) as [alpha|]; [|done].
  rewrite check_calls_app, IH. simpl.
  set (c := call_at _ _ _ _ _ _ _ _ _).
  destruct (Hsol c) as (H0 & H1 & H2).
  unfold c in H0 at 2, H1 at 2. rewrite call_at_w_init in H0.
  rewrite (length_w_init_at _ _ h0 X y) in H0 by done.
  assert (Hy : call_at celer_sparse celer_dense h0 X y p sc
                 (snd <$> last (trace celer_sparse celer_dense h0 X y p sc grid k))
                 alpha = c) by done.
  assert (Hcy : call_y c = y)
    by (unfold c, call_at, make_call; by destruct (X_store X)).
  fold c in H1. rewrite Hcy in H1.
  destruct Hin as (Hlen & _). rewrite Hlen in H1.
  unfold check_call.
  rewrite np_last_nonempty, !np_setitem_exact by done. cbn [bind].
  by rewrite Hmon.
Qed.

(** Without [monitor] the fourth component of the solver's tuple is never
    read: an inner solver that returns only coefficients, dual point and gap
    trajectory is enough for the run to return, with one call per grid
    value and no trajectory kept. *)
Theorem three_components_suffice_without_monitor
    (h0 : heap F) (X : design F) (y : list F) (p : params F) :
  inputs_ok h0 X y p ->
  offset_ok p ->
  solver_contract3 solve ->
  monitor p = false ->
  exists out grid,
    run h0 X y p = Ok out /\
    out_results out !! 0 = Some (Arr1 grid) /\
    length (out_calls out) = length grid /\
    length (out_results out) = (if return_thetas p then 4 else 3) /\
    st_gaps_per_alpha (out_final out) = [] /\
    st_times_per_alpha (out_final out) = [].
Proof.
  intros Hin Hoff Hsol Hmon.
  destruct (make_alphas_ok h0 X y p Hin) as [grid Hgrid].
  exists (outcome_of celer_sparse celer_dense clock h0 X p grid
            (trace celer_sparse celer_dense h0 X y p
               (match X_offset p, X_scale p with
                | Some o, Some s => zip_with f_div o s
                | _, _ => np_zeros (n_features X)
                end) grid (length grid))), grid.
  split.
  { rewrite celer_path_unfold by (by eapply inputs_ok_valid).
    rewrite sparse_scaling_ok, Hgrid by done. cbn [bind]. cbv zeta.
    by rewrite (check_calls_ok3 h0 X y). }
  destruct (out_results_base celer_sparse celer_dense clock h0 X p grid
              (trace celer_sparse celer_dense h0 X y p
                 (match X_offset p, X_scale p with
                  | Some o, Some s => zip_with f_div o s
                  | _, _ => np_zeros (n_features X)
                  end) grid (length grid))) as [more Hres].
  split; [by rewrite Hres|].
  split; [by apply length_trace|].
  split.
  { unfold outcome_of, assemble. cbn [out_results]. rewrite Hmon.
    by destruct (return_thetas p). }
  cbn [out_final outcome_of state_of st_gaps_per_alpha st_times_per_alpha].
  by rewrite Hmon.
Qed.
End RecordFacts.

(** ** The single-alpha adapter, continued *)

Section AdapterFacts.
Context {F : Type} {dt : Dtype F}.
Variable celer_sparse :
  list F -> list nat -> list nat -> list F -> list F -> F -> list F ->
  kwargs F -> solution F.
Variable celer_dense :
  design F -> list F -> F -> list F -> kwargs F -> solution F.
Variable clock : nat -> F.

Local Abbreviation solve := (invoke celer_sparse celer_dense).

(** [celer] returns the four components of one call of the inner solver:
    the call at [alpha], started from a copy of [w_init] (zeros without
    one) with working-set size [max (nonzero count of w_init, p0)] ([p0]
    without one), a zero scaling vector for a sparse design matrix, the
    caller's [gap_freq], [max_epochs], verbosity, [tol] and [prune],
    acceleration on, and [max_iter] 20. *)
Theorem adapter_returns_the_single_solve
    (h0 : heap F) (X : design F) (y : list F) (alpha : F)
    (w_init : option addr)
    (max_iter gap_freq max_epochs p0 verbose verbose_inner : Z) (tol : F)
    (prune : Z) :
  length y = n_samples X ->
  0 < n_features X ->
  match w_init with
  | Some a => exists w, h0 !! a = Some w /\ length w = n_features X
  | None => True
  end ->
  solver_contract solve ->
  exists c times,
    celer celer_sparse celer_dense clock h0 X y alpha w_init max_iter gap_freq
          max_epochs p0 verbose verbose_inner tol prune
    = Ok (sol_0 (solve c), sol_1 (solve c), sol_2 (solve c), times) /\
    sol_3 (solve c) = Some times /\
    c = make_call X (np_zeros (n_features X)) y alpha
          (match w_init with
           | Some a => deref h0 a
           | None => np_zeros (n_features X)
           end)
          {| kw_max_iter := 20; kw_gap_freq := gap_freq;
             kw_max_epochs := max_epochs;
             kw_p0 := match w_init with
                      | Some a =>
                          Z.max (Z.of_nat (count_nonzero (deref h0 a))) p0
                      | None => p0
                      end;
             kw_verbose := verbose; kw_verbose_inner := verbose_inner;
             kw_use_accel := 1; kw_tol := tol; kw_prune := prune |}.
Proof.
  intros Hy Hnf Hw Hsol. unfold celer.
  set (P := {| eps := f_eps_default; n_alphas := 100; alphas := Some [alpha];
               coef_init := w_init; max_iter := 20; gap_freq := gap_freq;
               max_epochs := max_epochs; p0 := p0; verbose := verbose;
               verbose_inner := verbose_inner; tol := tol; prune := prune;
               return_thetas := true; monitor := true;
               X_offset := None; X_scale := None |}).
  assert (Hin : inputs_ok h0 X y P) by (repeat split; done).
  destruct (celer_path_total celer_sparse celer_dense clock h0 X y P
              Hin I Hsol) as (sc & grid & Hsc & Hgrid & Hrun).
  injection Hsc as <-. injection Hgrid as <-.
  rewrite Hrun. cbn [bind rev np_sort foldr insert_sorted app length].
  set (c := call_at celer_sparse celer_dense h0 X y P
              (np_zeros (n_features X)) None alpha).
  assert (Htr : trace celer_sparse celer_dense h0 X y P
                  (np_zeros (n_features X)) [alpha] 1
                = [(S (length h0) + 0, c)]) by reflexivity.
  rewrite Htr.
  destruct (Hsol c) as (H0 & H1 & H2 & H3).
  assert (Hc0 : trace celer_sparse celer_dense h0 X y P
                  (np_zeros (n_features X)) [alpha] (length [alpha]) !! 0
                = Some (S (length h0) + 0, c)) by reflexivity.
  destruct (call_shape celer_sparse celer_dense h0 X y P
              (np_zeros (n_features X)) [alpha] 0 _ c Hin Hc0) as [Hcw Hcy].
  rewrite Hcw in H0. rewrite Hcy, Hy in H1.
  destruct (sol_3 (solve c)) as [times|] eqn:Htimes; [|done].
  exists c, times.
  split; [|split; [done|]].
  - unfold outcome_of, assemble.
    cbn [out_results return_thetas monitor P state_of st_thetas st_dual_gaps
         st_gaps_per_alpha st_times_per_alpha map snd length app index0
         Nat.ltb Nat.leb bind].
    rewrite (column_coefs_of celer_sparse celer_dense X [alpha] _ 0
               (S (length h0) + 0, c)) by reflexivity.
    cbn [bind snd]. rewrite Htimes.
    unfold col_of, row_of. by rewrite !stored_exact by done.
  - unfold c, call_at, w_init_at, hint_at, make_kwargs, P. cbn.
    by destruct w_init.
Qed.
End AdapterFacts.

(** ** The further properties at concrete inputs *)

Module MoreWitnesses.
Import QDtype Examples FaultyExamples ExampleFacts.

Lemma triple_contract3 : solver_contract3 (invoke triple_sparse triple_dense).
Proof. intros c. by destruct c. Qed.


(** A solver without gaps, on the toy inputs. *)
Lemma empty_gap_trajectory_raises_IndexError_witness :
  (forall l, coef_init plain_params = Some l -> l < length no_heap) /\
  offset_ok plain_params /\
  alphas plain_params = Some unsorted_grid /\
  unsorted_grid <> [] /\
  (forall c, sol_2 ((invoke mute_sparse mute_dense) c) = []) /\
  (celer_path mute_sparse mute_dense tick) no_heap X_dense y3 plain_params = Raise IndexError.
Proof.
  assert (Hci : forall l, coef_init plain_params = Some l -> l < length no_heap)
    by discriminate.
  assert (Hne : unsorted_grid <> []) by discriminate.
  assert (Hgaps : forall c, sol_2 (invoke mute_sparse mute_dense c) = [])
    by (by intros []).
  split; [exact Hci|]. split; [exact I|]. split; [reflexivity|].
  split; [exact Hne|]. split; [exact Hgaps|].
  exact (empty_gap_trajectory_raises_IndexError mute_sparse mute_dense tick no_heap
           X_dense y3 plain_params unsorted_grid Hci I eq_refl Hne Hgaps).
Defined.

(** A solver with three coefficients for two features. *)
Lemma misshapen_coefficients_raise_ValueError_witness :
  (forall l, coef_init plain_params = Some l -> l < length no_heap) /\
  offset_ok plain_params /\
  alphas plain_params = Some unsorted_grid /\
  unsorted_grid <> [] /\
  (forall c, sol_2 ((invoke long_sparse long_dense) c) <> [] /\
               length (sol_0 ((invoke long_sparse long_dense) c)) <> n_features X_dense /\
               length (sol_0 ((invoke long_sparse long_dense) c)) <> 1) /\
  (celer_path long_sparse long_dense tick) no_heap X_dense y3 plain_params = Raise ValueError.
Proof.
  assert (Hci : forall l, coef_init plain_params = Some l -> l < length no_heap)
    by discriminate.
  assert (Hne : unsorted_grid <> []) by discriminate.
  assert (Hshape : forall c,
            sol_2 (invoke long_sparse long_dense c) <> [] /\
            length (sol_0 (invoke long_sparse long_dense c)) <> n_features X_dense /\
            length (sol_0 (invoke long_sparse long_dense c)) <> 1)
    by (intros []; repeat split; simpl; (discriminate || lia)).
  split; [exact Hci|]. split; [exact I|]. split; [reflexivity|].
  split; [exact Hne|]. split; [exact Hshape|].
  exact (misshapen_coefficients_raise_ValueError long_sparse long_dense tick no_heap
           X_dense y3 plain_params unsorted_grid Hci I eq_refl Hne Hshape).
Defined.

(** A solver of three components under [monitor]. *)
Lemma monitor_needs_timing_trajectory_witness :
  inputs_ok [] X_dense y3 monitor_params /\
  offset_ok monitor_params /\
  alphas monitor_params = Some unsorted_grid /\
  unsorted_grid <> [] /\
  monitor monitor_params = true /\
  solver_contract3 (invoke triple_sparse triple_dense) /\
  (forall c, sol_3 ((invoke triple_sparse triple_dense) c) = None) /\
  (celer_path triple_sparse triple_dense tick) [] X_dense y3 monitor_params = Raise IndexError.
Proof.
  assert (Hin : inputs_ok [] X_dense y3 monitor_params).
  { repeat split; try reflexivity; try (simpl; lia); try discriminate. }
  assert (Hne : unsorted_grid <> []) by discriminate.
  assert (Hnone : forall c, sol_3 (invoke triple_sparse triple_dense c) = None)
    by (by intros []).
  split; [exact Hin|]. split; [exact I|]. split; [reflexivity|].
  split; [exact Hne|]. split; [reflexivity|]. split; [exact triple_contract3|].
  split; [exact Hnone|].
  exact (monitor_needs_timing_trajectory triple_sparse triple_dense tick []
           X_dense y3 monitor_params unsorted_grid Hin I eq_refl Hne eq_refl
           triple_contract3 Hnone).
Defined.

(** The empty grid on the toy inputs. *)
Lemma empty_grid_runs_no_solver_witness :
  offset_ok empty_grid_params /\
  alphas empty_grid_params = Some [] /\
  exists out,
      (celer_path toy_sparse toy_dense tick) caller_heap X_dense y3 empty_grid_params = Ok out /\
      out_calls out = [] /\
      out_warnings out = [] /\
      out_heap out = caller_heap ++ [[]] /\
      out_results out
      = [Arr1 []; Arr2F (n_features X_dense) 0 []; Arr1 []]
        ++ (if return_thetas empty_grid_params
            then Arr2C [] :: (if monitor empty_grid_params then [PyList []; PyList []] else [])
            else []).
Proof.
  split; [exact I|]. split; [reflexivity|].
  exact (empty_grid_runs_no_solver toy_sparse toy_dense tick caller_heap
           X_dense y3 empty_grid_params I eq_refl).
Defined.

(** A dense run with and without an offset and a scale. *)
Lemma dense_run_ignores_offset_witness :
  data_is_sparse X_dense = false /\
  offset_ok (with_offset plain_params (Some [1; 1]%Q) (Some [2; 2]%Q)) /\
  offset_ok (with_offset plain_params None None) /\
  (celer_path toy_sparse toy_dense tick) [] X_dense y3 (with_offset plain_params (Some [1; 1]%Q) (Some [2; 2]%Q)) = (celer_path toy_sparse toy_dense tick) [] X_dense y3 (with_offset plain_params None None).
Proof.
  split; [reflexivity|]. split; [reflexivity|]. split; [exact I|].
  exact (dense_run_ignores_offset toy_sparse toy_dense tick [] X_dense y3
           plain_params (Some [1; 1]%Q) (Some [2; 2]%Q) None None
           eq_refl eq_refl I).
Defined.

(** The forwarding theorem on the toy run. *)
Lemma calls_forward_the_arguments_witness :
  (forall a, coef_init warm_params = Some a -> a < length caller_heap) /\
  exists out,
    (celer_path toy_sparse toy_dense tick) caller_heap X_dense y3 warm_params = Ok out /\
    forall t l c,
        out_calls out !! t = Some (l, c) ->
        call_y c = y3 /\
        kw_max_iter (call_kw c) = max_iter warm_params /\
        kw_gap_freq (call_kw c) = gap_freq warm_params /\
        kw_max_epochs (call_kw c) = max_epochs warm_params /\
        kw_verbose (call_kw c) = verbose warm_params /\
        kw_verbose_inner (call_kw c) = verbose_inner warm_params /\
        kw_use_accel (call_kw c) = 1%Z /\
        kw_tol (call_kw c) = tol warm_params /\
        kw_prune (call_kw c) = prune warm_params /\
        match X_store X_dense with
        | Csc data indices indptr =>
            exists sc alpha w kw, c = Call_sparse data indices indptr sc y3 alpha w kw
        | Dense _ => exists alpha w kw, c = Call_dense X_dense y3 alpha w kw
        end.
Proof.
  assert (Hci : forall a, coef_init warm_params = Some a -> a < length caller_heap)
    by (intros a Ha; injection Ha as <-; simpl; lia).
  split; [exact Hci|].
  eexists. split; [vm_compute; reflexivity|].
  apply (calls_forward_the_arguments toy_sparse toy_dense tick caller_heap X_dense y3 warm_params);
    [exact Hci | vm_compute; reflexivity].
Defined.

(** The heap theorem on the toy run. *)
Lemma caller_heap_is_preserved_witness :
  (forall a, coef_init warm_params = Some a -> a < length caller_heap) /\
  exists out,
    (celer_path toy_sparse toy_dense tick) caller_heap X_dense y3 warm_params = Ok out /\
    take (length caller_heap) (out_heap out) = caller_heap /\
      length (out_heap out) = length caller_heap + 1 + length (out_calls out).
Proof.
  assert (Hci : forall a, coef_init warm_params = Some a -> a < length caller_heap)
    by (intros a Ha; injection Ha as <-; simpl; lia).
  split; [exact Hci|].
  eexists. split; [vm_compute; reflexivity|].
  apply (caller_heap_is_preserved toy_sparse toy_dense tick caller_heap X_dense y3 warm_params);
    [exact Hci | vm_compute; reflexivity].
Defined.

(** The bound on the working-set size on the toy run. *)
Lemma later_hints_are_bounded_witness :
  (forall a, coef_init warm_params = Some a -> a < length caller_heap) /\
  exists out,
    (celer_path toy_sparse toy_dense tick) caller_heap X_dense y3 warm_params = Ok out /\
    forall t l c,
        out_calls out !! S t = Some (l, c) ->
        (1 <= kw_p0 (call_kw c) <= Z.max 1 (Z.of_nat (n_features X_dense)))%Z.
Proof.
  assert (Hci : forall a, coef_init warm_params = Some a -> a < length caller_heap)
    by (intros a Ha; injection Ha as <-; simpl; lia).
  split; [exact Hci|].
  eexists. split; [vm_compute; reflexivity|].
  apply (later_hints_are_bounded toy_sparse toy_dense tick caller_heap X_dense y3 warm_params);
    [exact Hci | vm_compute; reflexivity].
Defined.

(** The chaining theorem on the toy run. *)
Lemma warm_start_chains_the_solves_witness :
  inputs_ok caller_heap X_dense y3 warm_params /\
  offset_ok warm_params /\
  solver_contract (invoke toy_sparse toy_dense) /\
  exists out,
      (celer_path toy_sparse toy_dense tick) caller_heap X_dense y3 warm_params = Ok out /\
      forall t l c l' c',
        out_calls out !! t = Some (l, c) ->
        out_calls out !! S t = Some (l', c') ->
        call_w_init c' = sol_0 ((invoke toy_sparse toy_dense) c) /\
        kw_p0 (call_kw c')
        = Z.max (Z.of_nat (count_nonzero (sol_0 ((invoke toy_sparse toy_dense) c)))) 1.
Proof.
  assert (Hin : inputs_ok caller_heap X_dense y3 warm_params).
  { repeat split; try reflexivity; try (simpl; lia); try discriminate.
    eexists. split; reflexivity. }
  split; [exact Hin|]. split; [exact I|]. split; [exact toy_contract|].
  exact (warm_start_chains_the_solves toy_sparse toy_dense tick caller_heap
           X_dense y3 warm_params Hin I toy_contract).
Defined.

(** The trajectory theorem on the toy run. *)
Lemma monitored_trajectories_match_the_gaps_witness :
  inputs_ok caller_heap X_dense y3 warm_params /\
  offset_ok warm_params /\
  solver_contract (invoke toy_sparse toy_dense) /\
  return_thetas warm_params = true /\
  monitor warm_params = true /\
  exists out grid coefs gaps thetas all_gaps all_times,
      (celer_path toy_sparse toy_dense tick) caller_heap X_dense y3 warm_params = Ok out /\
      out_results out
      = [Arr1 grid; Arr2F (n_features X_dense) (length grid) coefs; Arr1 gaps;
         Arr2C thetas; PyList all_gaps; PyList all_times] /\
      length all_gaps = length grid /\
      length all_times = length grid /\
      forall t l c,
        out_calls out !! t = Some (l, c) ->
        all_gaps !! t = Some (sol_2 ((invoke toy_sparse toy_dense) c)) /\
        (exists times,
           all_times !! t = Some times /\ sol_3 ((invoke toy_sparse toy_dense) c) = Some times) /\
        gaps !! t = last (sol_2 ((invoke toy_sparse toy_dense) c)).
Proof.
  assert (Hin : inputs_ok caller_heap X_dense y3 warm_params).
  { repeat split; try reflexivity; try (simpl; lia); try discriminate.
    eexists. split; reflexivity. }
  split; [exact Hin|]. split; [exact I|]. split; [exact toy_contract|].
  split; [reflexivity|]. split; [reflexivity|].
  exact (monitored_trajectories_match_the_gaps toy_sparse toy_dense tick
           caller_heap X_dense y3 warm_params Hin I toy_contract eq_refl eq_refl).
Defined.

(** A solver of three components without [monitor]. *)
Lemma three_components_suffice_without_monitor_witness :
  inputs_ok [] X_dense y3 plain_params /\
  offset_ok plain_params /\
  solver_contract3 (invoke triple_sparse triple_dense) /\
  monitor plain_params = false /\
  exists out grid,
      (celer_path triple_sparse triple_dense tick) [] X_dense y3 plain_params = Ok out /\
      out_results out !! 0 = Some (Arr1 grid) /\
      length (out_calls out) = length grid /\
      length (out_results out) = (if return_thetas plain_params then 4 else 3) /\
      st_gaps_per_alpha (out_final out) = [] /\
      st_times_per_alpha (out_final out) = [].
Proof.
  assert (Hin : inputs_ok [] X_dense y3 plain_params).
  { repeat split; try reflexivity; try (simpl; lia); try discriminate. }
  split; [exact Hin|]. split; [exact I|]. split; [exact triple_contract3|].
  split; [reflexivity|].
  exact (three_components_suffice_without_monitor triple_sparse triple_dense
           tick [] X_dense y3 plain_params Hin I triple_contract3 eq_refl).
Defined.

(** The adapter on the toy inputs with a caller-supplied [w_init]. *)
Lemma adapter_returns_the_single_solve_witness :
  length y3 = n_samples X_dense /\
  0 < n_features X_dense /\
  match (Some 0) with
    | Some a => exists w, caller_heap !! a = Some w /\ length w = n_features X_dense
    | None => True
    end /\
  solver_contract (invoke toy_sparse toy_dense) /\
  exists c times,
      celer toy_sparse toy_dense tick caller_heap X_dense y3 (1 # 2)%Q (Some 0) 100%Z 10%Z
            50000%Z 10%Z 0%Z 0%Z (1 # 10)%Q 0%Z
      = Ok (sol_0 ((invoke toy_sparse toy_dense) c), sol_1 ((invoke toy_sparse toy_dense) c), sol_2 ((invoke toy_sparse toy_dense) c), times) /\
      sol_3 ((invoke toy_sparse toy_dense) c) = Some times /\
      c = make_call X_dense (np_zeros (n_features X_dense)) y3 (1 # 2)%Q
            (match (Some 0) with
             | Some a => deref caller_heap a
             | None => np_zeros (n_features X_dense)
             end)
            {| kw_max_iter := 20; kw_gap_freq := 10%Z;
               kw_max_epochs := 50000%Z;
               kw_p0 := match (Some 0) with
                        | Some a =>
                            Z.max (Z.of_nat (count_nonzero (deref caller_heap a))) 10%Z
                        | None => 10%Z
                        end;
               kw_verbose := 0%Z; kw_verbose_inner := 0%Z;
               kw_use_accel := 1; kw_tol := (1 # 10)%Q; kw_prune := 0%Z |}.
Proof.
  assert (Hw : exists w, caller_heap !! 0 = Some w /\ length w = n_features X_dense)
    by (eexists; split; reflexivity).
  split; [reflexivity|]. split; [simpl; lia|]. split; [exact Hw|].
  split; [exact toy_contract|].
  exact (adapter_returns_the_single_solve toy_sparse toy_dense tick caller_heap
           X_dense y3 (1 # 2)%Q (Some 0) 100 10 50000 10 0 0 (1 # 10)%Q 0
           eq_refl ltac:(simpl; lia) Hw toy_contract).
Defined.
(** A target of one entry for three samples, with the grid to derive. *)
Lemma derived_grid_rejects_bad_arguments_witness :
  alphas derive_q_params = None /\
  offset_ok derive_q_params /\
  (length short_y <> n_samples X_dense \/
   (0 < n_features X_dense /\ (n_alphas derive_q_params < 0)%Z)) /\
  celer_path toy_sparse toy_dense tick no_heap X_dense short_y derive_q_params
  = Raise ValueError.
Proof.
  assert (Hbad : length short_y <> n_samples X_dense \/
            (0 < n_features X_dense /\ (n_alphas derive_q_params < 0)%Z))
    by (left; simpl; lia).
  split; [reflexivity|]. split; [exact I|]. split; [exact Hbad|].
  exact (derived_grid_rejects_bad_arguments toy_sparse toy_dense tick no_heap
           X_dense short_y derive_q_params eq_refl I Hbad).
Defined.
End MoreWitnesses.

(** ** The order of the grid, over canonical rationals *)

Module CanonOrder.
Import QcDtype CanonExamples.

Lemma Qc_leb_total : leb_total (F := Qc).
Proof.
  intros a b. cbn [f_leb Qc_dtype]. rewrite !Qle_bool_iff.
  destruct (Qlt_le_dec a b) as [H|H]; [left; by apply Qlt_le_weak | by right].
Qed.

Lemma Qc_leb_trans : leb_trans (F := Qc).
Proof.
  intros a b c. cbn [f_leb Qc_dtype]. rewrite !Qle_bool_iff.
  apply Qle_trans.
Qed.

Lemma Qc_leb_antisym : leb_antisym (F := Qc).
Proof.
  intros a b. cbn [f_leb Qc_dtype]. rewrite !Qle_bool_iff. intros Hab Hba.
  apply Qc_is_canon. by apply Qle_antisym.
Qed.

Lemma rest_contract : solver_contract (invoke rest_sparse rest_dense).
Proof. intros c. by destruct c. Qed.

(** A descending grid of canonical rationals. *)
Lemma descending_grid_is_kept_witness :
  leb_total (F := Qc) /\
  leb_trans (F := Qc) /\
  leb_antisym (F := Qc) /\
  alphas (supplied_params two_one) = Some two_one /\
  descending two_one /\
  inputs_ok [] X_unit y_unit (supplied_params two_one) /\
  offset_ok (supplied_params two_one) /\
  solver_contract (invoke rest_sparse rest_dense) /\
  exists out,
      (celer_path rest_sparse rest_dense canon_clock) [] X_unit y_unit (supplied_params two_one) = Ok out /\
      out_results out !! 0%nat = Some (Arr1 two_one) /\
      map (fun c => call_alpha (snd c)) (out_calls out) = two_one.
Proof.
  assert (Hdesc : descending (F := Qc) two_one).
  { unfold descending, two_one. repeat constructor. }
  assert (Hin : inputs_ok [] X_unit y_unit (supplied_params two_one))
    by (repeat split; simpl; try done; lia).
  split; [exact Qc_leb_total|]. split; [exact Qc_leb_trans|].
  split; [exact Qc_leb_antisym|]. split; [reflexivity|]. split; [exact Hdesc|].
  split; [exact Hin|]. split; [exact I|]. split; [exact rest_contract|].
  exact (descending_grid_is_kept rest_sparse rest_dense canon_clock [] X_unit
           y_unit (supplied_params two_one) two_one Qc_leb_total Qc_leb_trans
           Qc_leb_antisym eq_refl Hdesc Hin I rest_contract).
Defined.

(** Two orders of the same grid of canonical rationals. *)
Lemma grid_order_is_irrelevant_witness :
  leb_total (F := Qc) /\
  leb_trans (F := Qc) /\
  leb_antisym (F := Qc) /\
  Permutation one_two two_one /\
  (celer_path rest_sparse rest_dense canon_clock) [] X_unit y_unit (with_alphas (supplied_params []) (Some one_two)) = (celer_path rest_sparse rest_dense canon_clock) [] X_unit y_unit (with_alphas (supplied_params []) (Some two_one)).
Proof.
  split; [exact Qc_leb_total|]. split; [exact Qc_leb_trans|].
  split; [exact Qc_leb_antisym|]. split; [apply perm_swap|].
  exact (grid_order_is_irrelevant rest_sparse rest_dense canon_clock [] X_unit
           y_unit (supplied_params []) one_two two_one Qc_leb_total
           Qc_leb_trans Qc_leb_antisym (perm_swap _ _ [])).
Defined.
End CanonOrder.
